(** * ovote-node: vote package store and chain synchronization

    A shallow embedding of [db/votepackages.go] and [eth/eth.go].

    - Unsigned 64-bit values ([uint64]) are [Z] with their range written
      as [is_uint64]; bytes are [Z] in [0, 256).
    - A [big.Int] is [Z]; a nil pointer is [None].
    - A Go [error] is an inductive value carrying its message; a nil error
      is [None].
    - The relational store is a record of tables (lists of rows), passed
      explicitly through every call; what [database/sql] does with the
      arguments and the columns (conversion of [uint64], the [Value] and
      [Scan] of a public key) is part of the model. *)

From Stdlib Require Import ZArith Lia.
From stdpp Require Import base list sorting strings pretty.

Local Open Scope Z_scope.

(** ** Go primitives used by the two packages *)

Module Go.

Abbreviation bytes := (list Z).

Definition is_uint64 (v : Z) : Prop := 0 <= v < 2 ^ 64.

(** [byte(v)]: conversion of an unsigned integer to a byte keeps the low
    eight bits. *)
Definition to_byte (v : Z) : Z := Z.land v 255.

(** [binary.LittleEndian.PutUint64(b, v)]: writes [b[0] .. b[7]].  The
    callers below always pass a slice of at least eight bytes, so the
    bounds check [_ = b[7]] never fires. *)
Definition PutUint64 (b : bytes) (v : Z) : bytes :=
  <[7%nat := to_byte (Z.shiftr v 56)]>
  (<[6%nat := to_byte (Z.shiftr v 48)]>
  (<[5%nat := to_byte (Z.shiftr v 40)]>
  (<[4%nat := to_byte (Z.shiftr v 32)]>
  (<[3%nat := to_byte (Z.shiftr v 24)]>
  (<[2%nat := to_byte (Z.shiftr v 16)]>
  (<[1%nat := to_byte (Z.shiftr v 8)]>
  (<[0%nat := to_byte v]> b))))))).

(** [make([]byte, n)] *)
Definition make (n : nat) : bytes := replicate n 0.

(** [copy(dst, src)]: overwrites the first [min (len dst) (len src)]
    bytes of [dst]. *)
Definition copy (dst src : bytes) : bytes :=
  take (length dst) src ++ drop (length src) dst.

(** A write through the sub-slice [b[lo:hi]] is a write into [b]: slices
    share their backing array. *)
Definition on_slice (lo hi : nat) (f : bytes -> bytes) (b : bytes) : bytes :=
  take lo b ++ f (take (hi - lo) (drop lo b)) ++ drop hi b.

(** The eight bytes [PutUint64] writes, in order. *)
Definition le64 (v : Z) : bytes :=
  [ to_byte v; to_byte (Z.shiftr v 8); to_byte (Z.shiftr v 16);
    to_byte (Z.shiftr v 24); to_byte (Z.shiftr v 32);
    to_byte (Z.shiftr v 40); to_byte (Z.shiftr v 48);
    to_byte (Z.shiftr v 56) ].

(** *** Errors *)

(** An [error] value remembers who built it: the SQL driver, or
    [fmt.Errorf] in this repository.  [Error] is the [Error()] method. *)
Inductive error : Type :=
| DriverError (msg : string)
| Errorf (msg : string).

Definition Error (e : error) : string :=
  match e with
  | DriverError msg => msg
  | Errorf msg => msg
  end.

Definition built_by_Errorf (e : error) : bool :=
  match e with
  | Errorf _ => true
  | DriverError _ => false
  end.

(** *** Formatting verbs of [fmt] *)

(** The double quote that [%q] puts around a string. *)
Definition quote : string := String (Ascii.ascii_of_nat 34) EmptyString.

(** [%d] *)
Definition fmt_d (v : Z) : string := pretty v.

Definition hex_digit (d : Z) : string :=
  match d with
  | 0 => "0" | 1 => "1" | 2 => "2" | 3 => "3" | 4 => "4" | 5 => "5"
  | 6 => "6" | 7 => "7" | 8 => "8" | 9 => "9" | 10 => "a" | 11 => "b"
  | 12 => "c" | 13 => "d" | 14 => "e" | _ => "f"
  end.

(** [%x] applied to a byte slice: two lower-case digits per byte. *)
Fixpoint fmt_x (b : bytes) : string :=
  match b with
  | [] => ""
  | x :: b' => hex_digit (x / 16) +:+ hex_digit (x mod 16) +:+ fmt_x b'
  end.

(** *** math/big *)

(** Base-256 digits of a non-negative integer, least significant first.
    [fuel] bounds the number of digits. *)
Fixpoint le_digits (fuel : nat) (n : Z) : bytes :=
  match fuel with
  | O => []
  | S fuel' => if n =? 0 then [] else (n mod 256) :: le_digits fuel' (n / 256)
  end.

(** [Int.Bytes()]: big-endian bytes of the absolute value, without
    leading zeros (empty for 0). *)
Definition big_Bytes (x : Z) : bytes :=
  rev (le_digits (S (Z.to_nat (Z.log2 (Z.abs x)))) (Z.abs x)).

(** [new(big.Int).SetBytes(buf)]: interprets [buf] as a big-endian
    unsigned integer. *)
Definition big_SetBytes (buf : bytes) : Z :=
  fold_left (fun acc b => acc * 256 + b) buf 0.

(** The value of little-endian base-256 digits. *)
Definition decode_le (l : bytes) : Z :=
  fold_right (fun b acc => acc * 256 + b) 0 l.

(** [Int.Uint64()] for a non-negative value: the low 64 bits. *)
Definition big_Uint64 (x : Z) : Z := x mod 2 ^ 64.

(** [int64(v)] for [v : uint64]: reinterpretation in two's complement. *)
Definition int64_of_uint64 (v : Z) : Z :=
  if v <? 2 ^ 63 then v else v - 2 ^ 64.

(** [binary.LittleEndian.Uint64(b)]: reads [b[0] .. b[7]].  A missing byte
    reads as 0 here; Go panics on a slice of fewer than eight bytes. *)
Definition Uint64 (b : bytes) : Z :=
  Z.lor (Z.lor (Z.lor (Z.lor (Z.lor (Z.lor (Z.lor
    (nth 0 b 0)
    (Z.shiftl (nth 1 b 0) 8))
    (Z.shiftl (nth 2 b 0) 16))
    (Z.shiftl (nth 3 b 0) 24))
    (Z.shiftl (nth 4 b 0) 32))
    (Z.shiftl (nth 5 b 0) 40))
    (Z.shiftl (nth 6 b 0) 48))
    (Z.shiftl (nth 7 b 0) 56).

End Go.

(** ** Package [babyjub] (external): the public key interface *)

(** The store needs [Compress], whose result type [[32]byte] fixes the
    length, and [Decompress], which a key read from the database goes
    through and which fails on bytes that are not those of a curve point.
    Nothing relates the two: a [PublicKey] value need not be a point of
    the curve. *)
Class BabyJub := {
  babyjub_PublicKey : Type;
  Compress : babyjub_PublicKey -> Go.bytes;
  Compress_length : forall pk, length (Compress pk) = 32%nat;
  Decompress : Go.bytes -> babyjub_PublicKey + Go.error
}.

(** Keys used in the examples: the key [k], a number below ten, stands for
    the public key of ordinate [k] whose abscissa has the positive sign;
    it compresses to [k] followed by 31 zero bytes.  Of these ordinates 0,
    1, 3, 5, 7 and 9 are those of a point of the curve; for the others,
    as 6, there is no abscissa and [Decompress] fails.  Only the bytes of
    a numbered key are looked at. *)
Definition numbered_Decompress (b : Go.bytes) : Z + Go.error :=
  match b with
  | k :: _ =>
      match k with
      | 0 | 1 | 3 | 5 | 7 | 9 => inl k
      | _ => inr (Go.Errorf "x is not a square mod q")
      end
  | [] => inr (Go.Errorf "x is not a square mod q")
  end.

#[export] Instance NumberedKeys : BabyJub := {|
  babyjub_PublicKey := Z;
  Compress := fun k => k :: replicate 31 0;
  Compress_length := fun _ => eq_refl;
  Decompress := numbered_Decompress
|}.

(** ** Package [types]: the declarations the two packages use *)

Module Types.

(** Modelled from the spec: the process status enumeration (package
    [types], not under src/).  The source names [ProcessStatusOn] and
    [ProcessStatusContractClosed]; the spec's section 3 gives the frozen
    state between them. *)
Inductive ProcessStatus : Type :=
| ProcessStatusOn
| ProcessStatusFrozen
| ProcessStatusContractClosed.

#[export] Instance ProcessStatus_eq_dec : EqDecision ProcessStatus.
Proof. solve_decision. Defined.

(** [types.CensusProof], with the fields [StoreVotePackage] reads. *)
Record CensusProof `{BabyJub} : Type := {
  Index : Z;
  PublicKey : babyjub_PublicKey;
  Weight : option Z;
  MerkleProof : Go.bytes
}.

(** [types.VotePackage] *)
Record VotePackage `{BabyJub} : Type := {
  Signature : Go.bytes;
  CensusProof_ : CensusProof;
  Vote : Go.bytes
}.

End Types.

(** ** Package [db] *)

Module DB.
Import Go Types.

Section Store.
Context `{BabyJub}.

(** Modelled from the spec: a row of the process table (schema not under
    src/), with the attributes of the spec's section 3 in the order
    [StoreProcess] receives them. *)
Record ProcessRow : Type := {
  p_id : Z;
  p_censusRoot : bytes;
  p_censusSize : Z;
  p_ethBlockNum : Z;
  p_resPubStartBlock : Z;
  p_resPubWindow : Z;
  p_minParticipation : Z;
  p_type : Z;
  p_status : ProcessStatus
}.

(** A row of the table [votepackages]: the columns of the INSERT statement
    of [StoreVotePackage], in its order.  The column [publicKey] holds
    what the [Value] method of a [babyjub.PublicKey] hands to the driver:
    the 32 bytes of the compressed key. *)
Record VotePackageRow : Type := {
  id : bytes;
  indx : Z;
  publicKey : bytes;
  weight : bytes;
  merkleproof : bytes;
  signature : bytes;
  vote : bytes;
  insertedDatetime : Z;
  processID : Z
}.

(** The database behind [*SQLite]: its tables, the persisted checkpoint,
    and the engine's clock ([CURRENT_TIMESTAMP]).  The database is open
    and its tables exist, so that [Prepare] succeeds; the errors left are
    those of the arguments, of the table constraints and of [Scan]. *)
Record SQLite : Type := {
  processes : list ProcessRow;
  votepackages : list VotePackageRow;
  lastSyncBlockNum : Z;
  CURRENT_TIMESTAMP : Z
}.

Definition set_votepackages (vs : list VotePackageRow) (r : SQLite) : SQLite :=
  {| processes := processes r; votepackages := vs;
     lastSyncBlockNum := lastSyncBlockNum r;
     CURRENT_TIMESTAMP := CURRENT_TIMESTAMP r |}.

Definition set_processes (ps : list ProcessRow) (r : SQLite) : SQLite :=
  {| processes := ps; votepackages := votepackages r;
     lastSyncBlockNum := lastSyncBlockNum r;
     CURRENT_TIMESTAMP := CURRENT_TIMESTAMP r |}.

Definition set_lastSyncBlockNum (n : Z) (r : SQLite) : SQLite :=
  {| processes := processes r; votepackages := votepackages r;
     lastSyncBlockNum := n;
     CURRENT_TIMESTAMP := CURRENT_TIMESTAMP r |}.

Definition process_exists (pid : Z) (r : SQLite) : bool :=
  existsb (fun p => p_id p =? pid) (processes r).

Definition id_taken (i : bytes) (r : SQLite) : bool :=
  existsb (fun row => bool_decide (id row = i)) (votepackages r).

(** The two messages of the SQL driver.  The second is the one
    [StoreVotePackage] compares against. *)
Definition unique_failed : string := "UNIQUE constraint failed: votepackages.id".
Definition foreign_key_failed : string := "FOREIGN KEY constraint failed".

(** Modelled from the spec: executing the INSERT of [StoreVotePackage]
    against the table [votepackages], whose schema is not under src/.  The
    column [id] is UNIQUE (the comment in [StoreVotePackage] says so) and
    [processID] is a foreign key into the process table (the error text
    [StoreVotePackage] tests for).  The uniqueness of the row is checked as
    it is written, the foreign key when the statement ends; a failed
    statement leaves the table as it was. *)
Definition exec_insert (row : VotePackageRow) (r : SQLite) : option error * SQLite :=
  if id_taken (id row) r then (Some (DriverError unique_failed), r)
  else if negb (process_exists (processID row) r)
       then (Some (DriverError foreign_key_failed), r)
       else (None, set_votepackages (votepackages r ++ [row]) r).

(** [database/sql] converts the arguments of [Exec] and [Query] before the
    statement runs, and refuses a [uint64] with its high bit set; the
    error names the argument by its position. *)
Definition high_bit_set (ordinal : Z) : string :=
  "sql: converting argument $" +:+ fmt_d ordinal
  +:+ " type: uint64 values with high bit set are not supported".

Definition convert_uint64 (ordinal v : Z) : option error :=
  if 2 ^ 63 <=? v then Some (DriverError (high_bit_set ordinal)) else None.

(** [stmt.Exec] with the arguments of [StoreVotePackage]: of the eight,
    the census index is the second and the process identifier the last;
    they are converted in that order, then the INSERT is executed. *)
Definition stmt_Exec (row : VotePackageRow) (r : SQLite) : option error * SQLite :=
  match convert_uint64 2 (indx row) with
  | Some err => (Some err, r)
  | None =>
      match convert_uint64 8 (processID row) with
      | Some err => (Some err, r)
      | None => exec_insert row r
      end
  end.

(** The 48-byte value of the column [id]: lines 44-48 of
    [StoreVotePackage]. *)
Definition vote_id (index : Z) (pk : babyjub_PublicKey) (processID : Z) : bytes :=
  let id := make 48 in
  let id := PutUint64 id index in
  let pubKComp := Compress pk in
  let id := on_slice 8 40 (fun dst => copy dst pubKComp) id in
  let id := on_slice 40 48 (fun dst => PutUint64 dst processID) id in
  id.

(** [func (r *SQLite) StoreVotePackage(processID uint64, vote types.VotePackage) error] *)
Definition StoreVotePackage (processID : Z) (vote : VotePackage) (r : SQLite)
  : option error * SQLite :=
  let cp := CensusProof_ vote in
  let w := match Weight cp with
           | None => 0 (* no weight defined, use 0 *)
           | Some w => w
           end in
  let id := vote_id (Index cp) (PublicKey cp) processID in
  let row := {| id := id; indx := Index cp;
                publicKey := Compress (PublicKey cp);
                weight := big_Bytes w; merkleproof := MerkleProof cp;
                signature := Signature vote; vote := Vote vote;
                insertedDatetime := CURRENT_TIMESTAMP r;
                processID := processID |} in
  match stmt_Exec row r with
  | (Some err, r') =>
      if String.eqb (Error err) foreign_key_failed
      then (Some (Errorf ("Can not store VotePackage, ProcessID="
                          +:+ fmt_d processID +:+ " does not exist")), r')
      else (Some err, r')
  | (None, r') => (None, r')
  end.

(** The row [StoreVotePackage] hands to the INSERT. *)
Definition row_of (processID : Z) (vote : VotePackage) (r : SQLite) : VotePackageRow :=
  let cp := CensusProof_ vote in
  {| id := vote_id (Index cp) (PublicKey cp) processID;
     indx := Index cp; publicKey := Compress (PublicKey cp);
     weight := big_Bytes (default 0 (Weight cp));
     merkleproof := MerkleProof cp;
     signature := Signature vote; vote := Vote vote;
     insertedDatetime := CURRENT_TIMESTAMP r;
     processID := processID |}.

(** What holds of every table the store can reach: a row's [id] is the one
    built from its own columns, of which the key has 32 bytes, its process
    identifier is a [uint64], and the process it references exists. *)
Definition store_ok (r : SQLite) : Prop :=
  forall row, row ∈ votepackages r ->
    id row = le64 (indx row) ++ publicKey row ++ le64 (processID row)
    /\ length (publicKey row) = 32%nat
    /\ is_uint64 (processID row)
    /\ process_exists (processID row) r = true.

(** [ORDER BY indx ASC] *)
Definition indx_le (a b : VotePackageRow) : Prop := indx a <= indx b.

#[export] Instance indx_le_dec a b : Decision (indx_le a b).
Proof. unfold indx_le. apply _. Defined.

(** The SELECT of [ReadVotePackagesByProcessID]: the rows of the process,
    ordered by [indx]. *)
Definition query_votepackages (pid : Z) (r : SQLite) : list VotePackageRow :=
  merge_sort indx_le (filter (fun row => processID row = pid) (votepackages r)).

(** The error of [rows.Scan] when the [Scan] method of a destination
    fails, as [database/sql] words it. *)
Definition scan_error (column : Z) (name : string) (err : error) : error :=
  DriverError ("sql: Scan error on column index " +:+ fmt_d column
               +:+ ", name " +:+ quote +:+ name +:+ quote +:+ ": "
               +:+ Error err).

(** The body of the [rows.Next()] loop: [rows.Scan] into a fresh
    [VotePackage], then the weight and the signature.  Of the six
    destinations only the public key, third of the SELECT, has a [Scan]
    of its own: it decompresses the bytes of the column, and [rows.Scan]
    fails when it does. *)
Definition scan_row (row : VotePackageRow) : VotePackage + error :=
  match Decompress (publicKey row) with
  | inr err => inr (scan_error 2 "publicKey" err)
  | inl pk =>
      inl {| Signature := copy (make 64) (signature row);
             CensusProof_ := {| Index := indx row;
                                PublicKey := pk;
                                Weight := Some (big_SetBytes (weight row));
                                MerkleProof := merkleproof row |};
             Vote := vote row |}
  end.

(** [for rows.Next() { ... }]: the first row that cannot be scanned ends
    the loop with [return nil, err]. *)
Fixpoint scan_rows (rows : list VotePackageRow) (votes : list VotePackage)
  : list VotePackage * option error :=
  match rows with
  | [] => (votes, None)
  | row :: rows' =>
      match scan_row row with
      | inr err => ([], Some err)
      | inl vote => scan_rows rows' (votes ++ [vote])
      end
  end.

(** [func (r *SQLite) ReadVotePackagesByProcessID(processID uint64) ([]types.VotePackage, error)] *)
Definition ReadVotePackagesByProcessID (processID : Z) (r : SQLite)
  : list VotePackage * option error :=
  match convert_uint64 1 processID with
  | Some err => ([], Some err)
  | None => scan_rows (query_votepackages processID r) []
  end.

(** The order of the result: ascending census index. *)
Definition Index_le (a b : VotePackage) : Prop :=
  Index (CensusProof_ a) <= Index (CensusProof_ b).

(** Section 3 of the spec: a weight is a non-negative integer, or absent. *)
Definition weight_in_domain (vote : VotePackage) : Prop :=
  match Weight (CensusProof_ vote) with
  | Some w => 0 <= w
  | None => True
  end.

(** Modelled from the spec: [StoreProcess] (package [db], not under src/).
    Section 6: it fails if the id exists; otherwise the process is
    recorded, with the status a created process has. *)
Definition StoreProcess (pid : Z) (censusRoot : bytes)
    (censusSize ethBlockNum resPubStartBlock resPubWindow : Z)
    (minParticipation typ : Z) (r : SQLite) : option error * SQLite :=
  if process_exists pid r
  then (Some (DriverError "UNIQUE constraint failed: processes.id"), r)
  else (None, set_processes
                (processes r ++
                 [{| p_id := pid; p_censusRoot := censusRoot;
                     p_censusSize := censusSize; p_ethBlockNum := ethBlockNum;
                     p_resPubStartBlock := resPubStartBlock;
                     p_resPubWindow := resPubWindow;
                     p_minParticipation := minParticipation;
                     p_type := typ; p_status := ProcessStatusOn |}]) r).

Definition set_status (s : ProcessStatus) (p : ProcessRow) : ProcessRow :=
  {| p_id := p_id p; p_censusRoot := p_censusRoot p;
     p_censusSize := p_censusSize p; p_ethBlockNum := p_ethBlockNum p;
     p_resPubStartBlock := p_resPubStartBlock p;
     p_resPubWindow := p_resPubWindow p;
     p_minParticipation := p_minParticipation p;
     p_type := p_type p; p_status := s |}.

(** Modelled from the spec: [UpdateProcessStatus] (package [db], not under
    src/).  Section 6: [UpdateProcessStatus(id, status)] records the status
    of the process with that id. *)
Definition UpdateProcessStatus (pid : Z) (s : ProcessStatus) (r : SQLite)
  : option error * SQLite :=
  (None, set_processes
           (map (fun p => if p_id p =? pid then set_status s p else p)
                (processes r)) r).

(** Modelled from the spec: [FrozeProcessesByCurrentBlockNum] (package
    [db], not under src/).  Section 5: a conditional update, only the
    processes currently [On] whose threshold block has been reached. *)
Definition FrozeProcessesByCurrentBlockNum (blockNum : Z) (r : SQLite)
  : option error * SQLite :=
  (None, set_processes
           (map (fun p => if bool_decide (p_status p = ProcessStatusOn)
                             && (p_resPubStartBlock p <=? blockNum)
                          then set_status ProcessStatusFrozen p else p)
                (processes r)) r).

(** Modelled from the spec: [GetLastSyncBlockNum] and
    [UpdateLastSyncBlockNum] (package [db], not under src/).  Sections 3
    and 4.1: one persisted unsigned integer, which the update sets to the
    block number it is given. *)
Definition GetLastSyncBlockNum (r : SQLite) : Z * option error :=
  (lastSyncBlockNum r, None).

Definition UpdateLastSyncBlockNum (blockNum : Z) (r : SQLite)
  : option error * SQLite :=
  (None, set_lastSyncBlockNum blockNum r).

(** The status recorded for a process id, if the process exists. *)
Fixpoint lookup_status (pid : Z) (ps : list ProcessRow) : option ProcessStatus :=
  match ps with
  | [] => None
  | p :: ps' => if p_id p =? pid then Some (p_status p) else lookup_status pid ps'
  end.

Definition status_of (pid : Z) (r : SQLite) : option ProcessStatus :=
  lookup_status pid (processes r).

(** The calls a client of the store can make, and their effect on it. *)
Inductive Call : Type :=
| CallStoreVotePackage (processID : Z) (vote : VotePackage)
| CallStoreProcess (pid : Z) (censusRoot : bytes)
    (censusSize ethBlockNum resPubStartBlock resPubWindow : Z)
    (minParticipation typ : Z)
| CallUpdateProcessStatus (pid : Z) (s : ProcessStatus)
| CallFrozeProcessesByCurrentBlockNum (blockNum : Z)
| CallUpdateLastSyncBlockNum (blockNum : Z).

Definition run_call (c : Call) (r : SQLite) : SQLite :=
  match c with
  | CallStoreVotePackage processID vote => (StoreVotePackage processID vote r).2
  | CallStoreProcess pid root size blk start window minp typ =>
      (StoreProcess pid root size blk start window minp typ r).2
  | CallUpdateProcessStatus pid s => (UpdateProcessStatus pid s r).2
  | CallFrozeProcessesByCurrentBlockNum blockNum =>
      (FrozeProcessesByCurrentBlockNum blockNum r).2
  | CallUpdateLastSyncBlockNum blockNum => (UpdateLastSyncBlockNum blockNum r).2
  end.

Definition run_calls (calls : list Call) (r : SQLite) : SQLite :=
  fold_left (fun r c => run_call c r) calls r.

(** The arguments of a call are of their Go types. *)
Definition well_typed (c : Call) : Prop :=
  match c with
  | CallStoreVotePackage processID _ => is_uint64 processID
  | _ => True
  end.

(** The columns that make a vote package unique: census index, compressed
    public key, process identifier. *)
Definition composite_key (row : VotePackageRow) : Z * bytes * Z :=
  (indx row, publicKey row, processID row).

(** The column [indx] of every row is a [uint64]. *)
Definition store_typed (r : SQLite) : Prop :=
  forall row, row ∈ votepackages r -> is_uint64 (indx row).

(** The column [id] is UNIQUE. *)
Definition unique_ids (r : SQLite) : Prop := NoDup (id <$> votepackages r).

(** The three together: what the table [votepackages] satisfies. *)
Definition store_inv (r : SQLite) : Prop :=
  store_ok r /\ store_typed r /\ unique_ids r.

(** [StoreVotePackage] called once for each element of [calls], in order:
    the errors returned and the store left at the end. *)
Fixpoint store_each (calls : list (Z * VotePackage)) (r : SQLite)
  : list (option error) * SQLite :=
  match calls with
  | [] => ([], r)
  | (processID, vote) :: calls' =>
      let (err, r') := StoreVotePackage processID vote r in
      let (errs, r'') := store_each calls' r' in
      (err :: errs, r'')
  end.

(** How many of the calls returned nil. *)
Definition succeeded (errs : list (option error)) : nat :=
  length (filter (fun e => e = None) errs).

(** The arguments of a [StoreVotePackage] call are of their Go types. *)
Definition uint64_call (c : Z * VotePackage) : Prop :=
  is_uint64 c.1 /\ is_uint64 (Index (CensusProof_ c.2)).

(** A vote package as [rows.Scan] fills it from the columns of a row: the
    signature in 64 bytes, the key decompressed, the weight read as an
    unsigned big-endian number. *)
Definition row_returned (row : VotePackageRow) (v' : VotePackage) : Prop :=
  Signature v' = copy (make 64) (signature row)
  /\ Index (CensusProof_ v') = indx row
  /\ Decompress (publicKey row) = inl (PublicKey (CensusProof_ v'))
  /\ Weight (CensusProof_ v') = Some (big_SetBytes (weight row))
  /\ MerkleProof (CensusProof_ v') = merkleproof row
  /\ Vote v' = vote row.

(** A vote package [v'] read back for the stored vote package [v]: the
    signature in 64 bytes, the key that the compressed key decompresses
    to, the weight as the magnitude that [Bytes] keeps (0 for nil), the
    other fields as they were. *)
Definition returned_for (v v' : VotePackage) : Prop :=
  Signature v' = copy (make 64) (Signature v)
  /\ Index (CensusProof_ v') = Index (CensusProof_ v)
  /\ Decompress (Compress (PublicKey (CensusProof_ v)))
     = inl (PublicKey (CensusProof_ v'))
  /\ Weight (CensusProof_ v')
     = Some (Z.abs (default 0 (Weight (CensusProof_ v))))
  /\ MerkleProof (CensusProof_ v') = MerkleProof (CensusProof_ v)
  /\ Vote v' = Vote v.

(** The keys stored for a process can all be decompressed. *)
Definition readable (pid : Z) (r : SQLite) : Prop :=
  forall row, row ∈ votepackages r -> processID row = pid ->
    exists pk, Decompress (publicKey row) = inl pk.


End Store.
End DB.

(** ** Package [eth] *)

Module Eth.
Import Go Types.

(** eventNewProcessLen defines the length of an event log of newProcess *)
Definition eventNewProcessLen : Z := 288.
(** eventResultPublishedLen defines the length of an event log of
    resultPublished *)
Definition eventResultPublishedLen : Z := 160.
(** eventProcessClosedLen defines the length of an event log of
    processClosed *)
Definition eventProcessClosedLen : Z := 96.

(** [types.Log] of go-ethereum: the two fields the package reads. *)
Record Log : Type := {
  Data : bytes;
  BlockNumber : Z
}.

(** [ethereum.FilterQuery]: the fields the package sets. *)
Record FilterQuery : Type := {
  FromBlock : option Z;
  ToBlock : option Z;
  Addresses : list bytes
}.

(** The event records, with the fields [processEventLog] reads. *)
Record eventNewProcess : Type := {
  np_ProcessID : Z;
  np_CensusRoot : bytes;
  np_CensusSize : Z;
  np_ResPubStartBlock : Z;
  np_ResPubWindow : Z;
  np_MinParticipation : Z;
  np_Type : Z
}.

Record eventProcessClosed : Type := {
  pc_ProcessID : Z
}.

(** [len(b)] *)
Definition len (b : bytes) : Z := Z.of_nat (length b).

(** The three parsers and the events' text form live in a file of package
    [eth] that is not under src/; [processEventLog] is written against
    them. *)
Class EventDecoder : Type := {
  eventResultPublished : Type;
  parseEventNewProcess : bytes -> eventNewProcess + error;
  parseEventResultPublished : bytes -> eventResultPublished + error;
  parseEventProcessClosed : bytes -> eventProcessClosed + error;
  string_NewProcess : eventNewProcess -> string;
  string_ResultPublished : eventResultPublished -> string;
  string_ProcessClosed : eventProcessClosed -> string
}.

(** Modelled from the spec: the three parsers (a file of package [eth] not
    under src/).  Section 4.1: a payload is a record of big-endian 32-byte
    fields, the process identifier first, then the fields in the order of
    the table; a payload of another length than the record's is refused.
    The text form of an event is its process identifier. *)
Definition field (i : nat) (d : bytes) : bytes := take 32 (drop (32 * i) d).

Definition field_uint64 (i : nat) (d : bytes) : Z :=
  big_Uint64 (big_SetBytes (field i d)).

Record specResultPublished : Type := {
  rp_ProcessID : Z;
  rp_result : bytes
}.

Definition spec_parseEventNewProcess (d : bytes) : eventNewProcess + error :=
  if len d =? eventNewProcessLen
  then inl {| np_ProcessID := field_uint64 0 d;
              np_CensusRoot := field 1 d;
              np_CensusSize := field_uint64 2 d;
              np_ResPubStartBlock := field_uint64 3 d;
              np_ResPubWindow := field_uint64 4 d;
              np_MinParticipation := field_uint64 5 d;
              np_Type := field_uint64 6 d |}
  else inr (Errorf ("newProcess event log should be of length "
                    +:+ fmt_d eventNewProcessLen)).

Definition spec_parseEventResultPublished (d : bytes) : specResultPublished + error :=
  if len d =? eventResultPublishedLen
  then inl {| rp_ProcessID := field_uint64 0 d; rp_result := drop 32 d |}
  else inr (Errorf ("resultPublished event log should be of length "
                    +:+ fmt_d eventResultPublishedLen)).

Definition spec_parseEventProcessClosed (d : bytes) : eventProcessClosed + error :=
  if len d =? eventProcessClosedLen
  then inl {| pc_ProcessID := field_uint64 0 d |}
  else inr (Errorf ("processClosed event log should be of length "
                    +:+ fmt_d eventProcessClosedLen)).

#[export] Instance SpecDecoder : EventDecoder := {|
  eventResultPublished := specResultPublished;
  parseEventNewProcess := spec_parseEventNewProcess;
  parseEventResultPublished := spec_parseEventResultPublished;
  parseEventProcessClosed := spec_parseEventProcessClosed;
  string_NewProcess := fun e => fmt_d (np_ProcessID e);
  string_ResultPublished := fun e => fmt_d (rp_ProcessID e);
  string_ProcessClosed := fun e => fmt_d (pc_ProcessID e)
|}.

(** The persistence port of the spec's section 6: the methods of
    [*db.SQLite] that package [eth] calls, over a store of type [D]. *)
Class ProcessStore (D : Type) : Type := {
  db_GetLastSyncBlockNum : D -> Z * option error;
  db_UpdateLastSyncBlockNum : Z -> D -> option error * D;
  db_StoreProcess : Z -> bytes -> Z -> Z -> Z -> Z -> Z -> Z -> D -> option error * D;
  db_UpdateProcessStatus : Z -> ProcessStatus -> D -> option error * D;
  db_FrozeProcessesByCurrentBlockNum : Z -> D -> option error * D
}.

#[export] Instance SQLiteStore : ProcessStore DB.SQLite := {|
  db_GetLastSyncBlockNum := DB.GetLastSyncBlockNum;
  db_UpdateLastSyncBlockNum := DB.UpdateLastSyncBlockNum;
  db_StoreProcess := DB.StoreProcess;
  db_UpdateProcessStatus := DB.UpdateProcessStatus;
  db_FrozeProcessesByCurrentBlockNum := DB.FrozeProcessesByCurrentBlockNum
|}.

(** What the chain node answers to [c.client]. *)
Record ethclient : Type := {
  HeaderByNumber : Z + error;
  FilterLogs : FilterQuery -> list Log + error;
  SubscribeNewHead : option error;
  SubscribeFilterLogs : FilterQuery -> option error
}.

(** Lines written through package [log], and through [fmt.Printf]. *)
Inductive LogLine : Type :=
| LogError (e : error)
| LogDebug (msg : string).

Section Engine.
Context {D : Type} `{ProcessStore D} `{EventDecoder}.

(** [Client], without the database handle, which is threaded through the
    calls as part of the world. *)
Record Client : Type := {
  client : ethclient;
  contractAddr : bytes;
  ChainID : Z
}.

(** Everything a call can change: the database, the log, standard output. *)
Record World : Type := {
  w_db : D;
  w_log : list LogLine;
  w_stdout : list string
}.

(** A small state monad over [World]. *)
Definition M (A : Type) : Type := World -> A * World.

Definition ret {A} (a : A) : M A := fun w => (a, w).

Definition bind {A B} (m : M A) (k : A -> M B) : M B :=
  fun w => let (a, w') := m w in k a w'.

Notation "x <- m ;; k" := (bind m (fun x => k))
  (at level 100, m at next level, right associativity).
Notation "m ;;; k" := (bind m (fun _ => k))
  (at level 100, right associativity).

Definition log_Error (e : error) : M unit :=
  fun w => (tt, {| w_db := w_db w; w_log := w_log w ++ [LogError e];
                   w_stdout := w_stdout w |}).

Definition log_Debugf (msg : string) : M unit :=
  fun w => (tt, {| w_db := w_db w; w_log := w_log w ++ [LogDebug msg];
                   w_stdout := w_stdout w |}).

Definition fmt_Printf (msg : string) : M unit :=
  fun w => (tt, {| w_db := w_db w; w_log := w_log w;
                   w_stdout := w_stdout w ++ [msg] |}).

(** A call of a method of [c.db]. *)
Definition call_db (op : D -> option error * D) : M (option error) :=
  fun w => let (err, d) := op (w_db w) in
           (err, {| w_db := d; w_log := w_log w; w_stdout := w_stdout w |}).

Definition newline : string := String (Ascii.ascii_of_nat 10) EmptyString.

(** [func (c *Client) processEventLog(eventLog types.Log) error] *)
Definition processEventLog (eventLog : Log) : M (option error) :=
  (* depending on eventLog.Data length, parse the different types of
     event logs *)
  let l := len (Data eventLog) in
  if l =? eventNewProcessLen then
    match parseEventNewProcess (Data eventLog) with
    | inr err =>
        ret (Some (Errorf ("blocknum: " +:+ fmt_d (BlockNumber eventLog)
                           +:+ ", error parsing event log (newProcess): "
                           +:+ fmt_x (Data eventLog)
                           +:+ ", err: " +:+ Error err)))
    | inl e =>
        log_Debugf ("Event: (blocknum: " +:+ fmt_d (BlockNumber eventLog)
                    +:+ ") " +:+ string_NewProcess e) ;;;
        (* store the process in the db *)
        err <- call_db (db_StoreProcess (np_ProcessID e) (np_CensusRoot e)
                          (np_CensusSize e) (BlockNumber eventLog)
                          (np_ResPubStartBlock e) (np_ResPubWindow e)
                          (np_MinParticipation e) (np_Type e)) ;;
        match err with
        | Some err =>
            ret (Some (Errorf ("error storing new process: "
                               +:+ fmt_x (Data eventLog)
                               +:+ ", err: " +:+ Error err)))
        | None => ret None
        end
    end
  else if l =? eventResultPublishedLen then
    match parseEventResultPublished (Data eventLog) with
    | inr err =>
        ret (Some (Errorf ("blocknum: " +:+ fmt_d (BlockNumber eventLog)
                           +:+ ", error parsing event log (resultPublished): "
                           +:+ fmt_x (Data eventLog)
                           +:+ ", err: " +:+ Error err)))
    | inl e =>
        log_Debugf ("Event: (blocknum: " +:+ fmt_d (BlockNumber eventLog)
                    +:+ ") " +:+ string_ResultPublished e) ;;;
        ret None
    end
  else if l =? eventProcessClosedLen then
    match parseEventProcessClosed (Data eventLog) with
    | inr err =>
        ret (Some (Errorf ("blocknum: " +:+ fmt_d (BlockNumber eventLog)
                           +:+ ", error parsing event log (processClosed): "
                           +:+ fmt_x (Data eventLog)
                           +:+ ", err: " +:+ Error err)))
    | inl e =>
        log_Debugf ("Event: (blocknum: " +:+ fmt_d (BlockNumber eventLog)
                    +:+ ") " +:+ string_ProcessClosed e) ;;;
        (* update process status in DB *)
        err <- call_db (db_UpdateProcessStatus (pc_ProcessID e)
                          ProcessStatusContractClosed) ;;
        match err with
        | Some err =>
            ret (Some (Errorf ("error updating process status: "
                               +:+ fmt_x (Data eventLog)
                               +:+ ", err: " +:+ Error err)))
        | None => ret None
        end
    end
  else
    fmt_Printf ("LOG in block " +:+ fmt_d (BlockNumber eventLog) +:+ ":"
                +:+ newline +:+ " " +:+ fmt_x (Data eventLog) +:+ " "
                +:+ newline) ;;;
    ret (Some (Errorf ("unrecognized event log with length " +:+ fmt_d l))).

(** The payloads the [default] case of [processEventLog] receives. *)
Definition unrecognized (eventLog : Log) : Prop :=
  len (Data eventLog) <> eventNewProcessLen
  /\ len (Data eventLog) <> eventResultPublishedLen
  /\ len (Data eventLog) <> eventProcessClosedLen.

Definition unrecognized_error (eventLog : Log) : error :=
  Errorf ("unrecognized event log with length " +:+ fmt_d (len (Data eventLog))).

(** The world [processEventLog] leaves on an unrecognized payload: one
    line on standard output, nothing else. *)
Definition after_unrecognized (eventLog : Log) (w : World) : World :=
  {| w_db := w_db w;
     w_log := w_log w;
     w_stdout := w_stdout w ++
       ["LOG in block " +:+ fmt_d (BlockNumber eventLog) +:+ ":" +:+ newline
        +:+ " " +:+ fmt_x (Data eventLog) +:+ " " +:+ newline] |}.

(** The same world once the loop around it has logged the error. *)
Definition after_unrecognized_logged (eventLog : Log) (w : World) : World :=
  {| w_db := w_db w;
     w_log := w_log w ++ [LogError (unrecognized_error eventLog)];
     w_stdout := w_stdout (after_unrecognized eventLog w) |}.

(** The body of the [for] loop of [syncEventsHistory] (lines 202-207), and
    of the [vLog] case of [syncEventsLive]: an error is logged and the
    loop goes on. *)
Definition process_and_log (eventLog : Log) : M unit :=
  err <- processEventLog eventLog ;;
  match err with
  | Some err => log_Error err
  | None => ret tt
  end.

(** [for i := 0; i < len(logs); i++ { ... }] *)
Fixpoint for_logs (logs : list Log) : M unit :=
  match logs with
  | [] => ret tt
  | eventLog :: logs' => process_and_log eventLog ;;; for_logs logs'
  end.

(** [func (c *Client) syncEventsHistory(startBlock, endBlock *big.Int) error] *)
Definition syncEventsHistory (c : Client) (startBlock endBlock : Z)
  : M (option error) :=
  let query := {| FromBlock := Some startBlock; ToBlock := Some endBlock;
                  Addresses := [contractAddr c] |} in
  match FilterLogs (client c) query with
  | inr err => log_Error err ;;; ret (Some err)
  | inl logs => for_logs logs ;;; ret None
  end.

(** [func (c *Client) syncHistory(startBlock uint64) error] *)
Definition syncHistory (c : Client) (startBlock : Z) : M (option error) :=
  match HeaderByNumber (client c) with
  | inr err => log_Error err ;;; ret (Some err)
  | inl currBlockNum =>
      log_Debugf ("[SyncHistory] blocks from: " +:+ fmt_d startBlock
                  +:+ ", to: " +:+ fmt_d currBlockNum) ;;;
      err <- syncEventsHistory c (int64_of_uint64 startBlock) currBlockNum ;;
      match err with
      | Some err => log_Error err ;;; ret (Some err)
      | None =>
          (* update the processes which their ResPubStartBlock has been
             reached (and that they were still in status ProcessStatusOn *)
          err <- call_db (db_FrozeProcessesByCurrentBlockNum
                            (big_Uint64 currBlockNum)) ;;
          match err with
          | Some err => log_Error err ;;; ret (Some err)
          | None => ret None
          end
      end
  end.

(** What a [select] of [syncBlocksLive] can receive: an error of the
    subscription, or a header, of which the loop reads the number. *)
Inductive HeadMsg : Type :=
| HeadSubErr (err : error)
| NewHeader (number : Z).

(** What a [select] of [syncEventsLive] can receive. *)
Inductive LogMsg : Type :=
| LogSubErr (err : error)
| NewLog (vLog : Log).

(** One iteration of the [for { select { ... } }] of [syncBlocksLive]. *)
Definition syncBlocksLive_select (m : HeadMsg) : M unit :=
  match m with
  | HeadSubErr err => log_Error err
  | NewHeader number =>
      log_Debugf ("new eth block received: " +:+ fmt_d (big_Uint64 number)) ;;;
      (* store in db lastSyncBlockNum *)
      err <- call_db (db_UpdateLastSyncBlockNum (big_Uint64 number)) ;;
      match err with
      | Some err => log_Error err
      | None => ret tt
      end
  end.

(** One iteration of the [for { select { ... } }] of [syncEventsLive]. *)
Definition syncEventsLive_select (m : LogMsg) : M unit :=
  match m with
  | LogSubErr err => log_Error err
  | NewLog vLog => process_and_log vLog
  end.

Fixpoint forever {A} (body : A -> M unit) (received : list A) : M unit :=
  match received with
  | [] => ret tt
  | m :: received' => body m ;;; forever body received'
  end.

(** The two live loops have no exit: once subscribed they either have
    returned the subscription's error, or are still in the loop, having
    handled the messages received so far. *)
Inductive Outcome : Type :=
| Returned (err : error)
| InLoop.

(** [func (c *Client) syncBlocksLive() error], run on the messages
    [received] from the subscription. *)
Definition syncBlocksLive (c : Client) (received : list HeadMsg) : M Outcome :=
  match SubscribeNewHead (client c) with
  | Some err => log_Error err ;;; ret (Returned err)
  | None => forever syncBlocksLive_select received ;;; ret InLoop
  end.

(** [func (c *Client) syncEventsLive() error], run on the messages
    [received] from the subscription. *)
Definition syncEventsLive (c : Client) (received : list LogMsg) : M Outcome :=
  let query := {| FromBlock := None; ToBlock := None;
                  Addresses := [contractAddr c] |} in
  match SubscribeFilterLogs (client c) query with
  | Some err => log_Error err ;;; ret (Returned err)
  | None => forever syncEventsLive_select received ;;; ret InLoop
  end.

(** [Sync] starts [syncEventsLive] in a goroutine, then runs [syncHistory]
    and [syncBlocksLive]: the three activities interleave.  Each of them
    touches the database one method call at a time, so an execution is a
    sequence of these actions, in any order. *)
Inductive Action : Type :=
| LiveHeader (m : HeadMsg)
| LiveLog (m : LogMsg)
| BackfillLog (eventLog : Log)
| BackfillFroze (currBlockNum : Z).

Definition perform (a : Action) : M unit :=
  match a with
  | LiveHeader m => syncBlocksLive_select m
  | LiveLog m => syncEventsLive_select m
  | BackfillLog eventLog => process_and_log eventLog
  | BackfillFroze currBlockNum =>
      err <- call_db (db_FrozeProcessesByCurrentBlockNum
                        (big_Uint64 currBlockNum)) ;;
      match err with
      | Some err => log_Error err
      | None => ret tt
      end
  end.

(** The worlds an execution goes through, the initial one first. *)
Fixpoint execution (actions : list Action) (w : World) : list World :=
  match actions with
  | [] => [w]
  | a :: actions' => w :: execution actions' (perform a w).2
  end.

(** The event logs among the messages of the live subscription. *)
Fixpoint logs_of (received : list LogMsg) : list Log :=
  match received with
  | [] => []
  | LogSubErr _ :: received' => logs_of received'
  | NewLog vLog :: received' => vLog :: logs_of received'
  end.

(** The header numbers among the messages of the header subscription, as
    [Uint64()] gives them. *)
Fixpoint numbers_of (received : list HeadMsg) : list Z :=
  match received with
  | [] => []
  | HeadSubErr _ :: received' => numbers_of received'
  | NewHeader number :: received' => big_Uint64 number :: numbers_of received'
  end.

(** What [processEventLog] does to a database. *)
Definition apply_event (eventLog : Log) (d : D) : D :=
  w_db (processEventLog eventLog {| w_db := d; w_log := []; w_stdout := [] |}).2.

(** The errors [processEventLog] returns for the logs of a batch, in
    order, each log met in the world its predecessors left. *)
Fixpoint returned_errors (logs : list Log) (w : World) : list error :=
  match logs with
  | [] => []
  | eventLog :: logs' =>
      match (processEventLog eventLog w).1 with
      | Some err => [err]
      | None => []
      end ++ returned_errors logs' (process_and_log eventLog w).2
  end.

(** The errors among log lines. *)
Fixpoint error_lines (lines : list LogLine) : list error :=
  match lines with
  | [] => []
  | LogError e :: lines' => e :: error_lines lines'
  | LogDebug _ :: lines' => error_lines lines'
  end.

(** The event kind whose parser refuses the payload, with the parser's
    error, if [processEventLog] meets one. *)
Definition parse_failure (eventLog : Log) : option (string * error) :=
  let l := len (Data eventLog) in
  if l =? eventNewProcessLen then
    match parseEventNewProcess (Data eventLog) with
    | inr err => Some ("newProcess", err)
    | inl _ => None
    end
  else if l =? eventResultPublishedLen then
    match parseEventResultPublished (Data eventLog) with
    | inr err => Some ("resultPublished", err)
    | inl _ => None
    end
  else if l =? eventProcessClosedLen then
    match parseEventProcessClosed (Data eventLog) with
    | inr err => Some ("processClosed", err)
    | inl _ => None
    end
  else None.

(** The query [syncEventsHistory] sends. *)
Definition history_query (c : Client) (startBlock endBlock : Z) : FilterQuery :=
  {| FromBlock := Some startBlock; ToBlock := Some endBlock;
     Addresses := [contractAddr c] |}.

Definition add_log (line : LogLine) (w : World) : World :=
  {| w_db := w_db w; w_log := w_log w ++ [line]; w_stdout := w_stdout w |}.

(** How [syncHistory] fails before the freeze sweep, if it does: the error
    it returns and the number of times it logs it. *)
Definition history_failure (c : Client) (startBlock : Z) : option (error * nat) :=
  match HeaderByNumber (client c) with
  | inr err => Some (err, 1%nat)
  | inl currBlockNum =>
      match FilterLogs (client c)
              (history_query c (int64_of_uint64 startBlock) currBlockNum) with
      | inr err => Some (err, 2%nat)
      | inl _ => None
      end
  end.

(** The log lines written since the world [w]. *)
Definition new_lines (w w' : World) : list LogLine :=
  drop (length (w_log w)) (w_log w').

End Engine.

Arguments World D : clear implicits.
Arguments M D A : clear implicits.

(** The port with another [UpdateLastSyncBlockNum], everything else as
    it was. *)
Definition with_UpdateLastSyncBlockNum {D} (upd : Z -> D -> option error * D)
    (S : ProcessStore D) : ProcessStore D := {|
  db_GetLastSyncBlockNum := @db_GetLastSyncBlockNum D S;
  db_UpdateLastSyncBlockNum := upd;
  db_StoreProcess := @db_StoreProcess D S;
  db_UpdateProcessStatus := @db_UpdateProcessStatus D S;
  db_FrozeProcessesByCurrentBlockNum := @db_FrozeProcessesByCurrentBlockNum D S
|}.

(** The persisted checkpoint of a world over the SQLite store. *)
Definition checkpoint (w : World DB.SQLite) : Z :=
  DB.lastSyncBlockNum (w_db w).

(** The checkpoint an action leaves, given the one it found. *)
Definition checkpoint_after (a : Action) (c : Z) : Z :=
  match a with
  | LiveHeader (NewHeader number) => big_Uint64 number
  | _ => c
  end.

Fixpoint checkpoint_trace (c : Z) (actions : list Action) : list Z :=
  match actions with
  | [] => [c]
  | a :: actions' => c :: checkpoint_trace (checkpoint_after a c) actions'
  end.

End Eth.

(** ** Concrete stores, votes and event logs used in the examples *)

Module Examples.
Import Go Types DB Eth.

(** A store that knows process 1, with no vote package yet. *)
Definition r0 : SQLite :=
  {| processes := [{| p_id := 1; p_censusRoot := replicate 32 7;
                      p_censusSize := 100; p_ethBlockNum := 5;
                      p_resPubStartBlock := 20; p_resPubWindow := 10;
                      p_minParticipation := 0; p_type := 0;
                      p_status := ProcessStatusFrozen |}];
     votepackages := [];
     lastSyncBlockNum := 0;
     CURRENT_TIMESTAMP := 1000 |}.

Definition vote_of (index key : Z) (w : option Z) : VotePackage :=
  {| Signature := replicate 64 1;
     CensusProof_ := {| Index := index; PublicKey := (key : babyjub_PublicKey);
                        Weight := w; MerkleProof := [4; 2] |};
     Vote := [1] |}.

(** The store after one vote of index 3, without a weight. *)
Definition r1 : SQLite := (StoreVotePackage 1 (vote_of 3 5 None) r0).2.

(** The store after one vote whose key, of ordinate 6, is not that of a
    point of the curve, and the store after one vote of weight -5. *)
Definition r6 : SQLite := (StoreVotePackage 1 (vote_of 3 6 None) r0).2.
Definition rneg : SQLite := (StoreVotePackage 1 (vote_of 3 5 (Some (-5))) r0).2.

(** A payload of [n] 32-byte fields, the first one holding [pid]. *)
Definition payload (n : nat) (pid : Z) : bytes :=
  replicate 31 0 ++ [pid] ++ replicate (32 * (n - 1)) 0.

Definition w0 : World SQLite := {| w_db := r0; w_log := []; w_stdout := [] |}.

(** Event logs: an unknown payload of three bytes, a ResultPublished and a
    ProcessClosed payload for process 1. *)
Definition log3 : Log := {| Data := [1; 2; 3]; BlockNumber := 7 |}.
Definition logResult : Log := {| Data := payload 5 1; BlockNumber := 8 |}.
Definition logClosed : Log := {| Data := payload 3 1; BlockNumber := 9 |}.

End Examples.

(** ** A chain node, a decoder that refuses, and more inputs *)

Module MoreExamples.
Import Go Types DB Eth Examples.

(** A NewProcess payload for process 2, in block 6. *)
Definition logNew : Log := {| Data := payload 9 2; BlockNumber := 6 |}.

(** The logs the node holds, in the chain's order. *)
Definition chain : list Log := [log3; logResult; logClosed].

Definition in_range (q : FilterQuery) (eventLog : Log) : bool :=
  match FromBlock q, ToBlock q with
  | Some from, Some to => (from <=? BlockNumber eventLog) && (BlockNumber eventLog <=? to)
  | _, _ => true
  end.

(** A node at block 12 that answers every request. *)
Definition node : ethclient :=
  {| HeaderByNumber := inl 12;
     FilterLogs := fun q => inl (List.filter (in_range q) chain);
     SubscribeNewHead := None;
     SubscribeFilterLogs := fun _ => None |}.

(** A node that cannot be reached for the current header, and one that
    refuses the log query. *)
Definition node_no_header : ethclient :=
  {| HeaderByNumber := inr (DriverError "connection refused");
     FilterLogs := fun q => inl [];
     SubscribeNewHead := None;
     SubscribeFilterLogs := fun _ => None |}.

Definition node_no_logs : ethclient :=
  {| HeaderByNumber := inl 12;
     FilterLogs := fun q => inr (DriverError "query timeout");
     SubscribeNewHead := None;
     SubscribeFilterLogs := fun _ => None |}.

Definition client_of (n : ethclient) : Client :=
  {| client := n; contractAddr := replicate 20 3; ChainID := 1 |}.

(** A decoder whose parsers refuse every payload. *)
Definition RefusingDecoder : EventDecoder := {|
  eventResultPublished := unit;
  parseEventNewProcess := fun _ => inr (Errorf "malformed");
  parseEventResultPublished := fun _ => inr (Errorf "malformed");
  parseEventProcessClosed := fun _ => inr (Errorf "malformed");
  string_NewProcess := fun _ => "";
  string_ResultPublished := fun _ => "";
  string_ProcessClosed := fun _ => ""
|}.

(** The SQLite store with a no-op in place of [UpdateLastSyncBlockNum]. *)
Definition SQLiteNoCheckpoint : ProcessStore SQLite :=
  with_UpdateLastSyncBlockNum (fun _ d => (None, d)) SQLiteStore.

End MoreExamples.

(** * Properties *)

(** ** Little-endian encoding *)

Section Encoding.
Import Go.

Lemma to_byte_shiftr_testbit v k j :
  0 <= k -> 0 <= j < 8 -> Z.testbit (to_byte (Z.shiftr v k)) j = Z.testbit v (j + k).
Proof.
  intros Hk Hj. unfold to_byte.
  rewrite Z.land_spec, Z.shiftr_spec by lia.
  change 255 with (Z.ones 8). rewrite Z.ones_spec_low by lia.
  apply andb_true_r.
Qed.

Lemma uint64_high_bits v n : is_uint64 v -> 64 <= n -> Z.testbit v n = false.
Proof.
  intros [Hlo Hhi] Hn.
  destruct (Z.eq_dec v 0) as [->|Hne]; [apply Z.bits_0|].
  apply Z.bits_above_log2; [lia|].
  assert (Z.log2 v < 64) by (apply Z.log2_lt_pow2; lia). lia.
Qed.

Lemma le64_inj a b : is_uint64 a -> is_uint64 b -> le64 a = le64 b -> a = b.
Proof.
  intros Ha Hb Heq. unfold le64 in Heq.
  injection Heq as E0 E1 E2 E3 E4 E5 E6 E7.
  apply Z.bits_inj'. intros n Hn.
  destruct (Z_lt_le_dec n 64) as [Hlt|Hge].
  - assert (Hcase : exists k j,
             (k = 0 \/ k = 8 \/ k = 16 \/ k = 24 \/ k = 32 \/ k = 40 \/ k = 48 \/ k = 56)
             /\ 0 <= j < 8 /\ n = j + k).
    { exists (8 * (n / 8)), (n mod 8).
      pose proof (Z.div_mod n 8 ltac:(lia)).
      pose proof (Z.mod_pos_bound n 8 ltac:(lia)). lia. }
    destruct Hcase as (k & j & Hk & Hj & ->).
    rewrite <- (Z.shiftr_0_r a) in E0. rewrite <- (Z.shiftr_0_r b) in E0.
    destruct Hk as [->|[->|[->|[->|[->|[->|[->| ->]]]]]]];
      rewrite <- !to_byte_shiftr_testbit by lia; congruence.
  - rewrite !uint64_high_bits by (done || lia). done.
Qed.

End Encoding.

(** ** The vote package store *)

Section VotePackages.
Context `{BabyJub}.
Import Go Types DB.

Lemma vote_id_layout index pk pid :
  vote_id index pk pid = le64 index ++ Compress pk ++ le64 pid.
Proof.
  unfold vote_id. pose proof (Compress_length pk) as Hlen.
  generalize dependent (Compress pk). intros comp Hlen.
  unfold on_slice, copy, PutUint64, make. simpl.
  rewrite Hlen. rewrite (take_ge comp 32) by lia. simpl.
  rewrite app_nil_r.
  rewrite (take_app_length' comp) by done.
  rewrite (drop_app_length' comp) by done.
  rewrite (drop_ge (comp ++ _)) by (rewrite length_app, Hlen; simpl; lia).
  simpl. reflexivity.
Qed.

Lemma vote_id_length index pk pid : length (vote_id index pk pid) = 48%nat.
Proof. rewrite vote_id_layout. rewrite !length_app, Compress_length. reflexivity. Qed.

(** C10.  The 48-byte record id (8-byte little-endian census index, then
    the 32-byte compressed public key, then the 8-byte little-endian
    process identifier) is injective: two ids are equal if and only if the
    indices, the compressed keys and the process identifiers are equal. *)
Lemma vote_id_injective i1 k1 p1 i2 k2 p2 :
  is_uint64 i1 -> is_uint64 p1 -> is_uint64 i2 -> is_uint64 p2 ->
  vote_id i1 k1 p1 = vote_id i2 k2 p2 <->
  i1 = i2 /\ Compress k1 = Compress k2 /\ p1 = p2.
Proof.
  intros Hi1 Hp1 Hi2 Hp2. rewrite !vote_id_layout. split.
  - intros Heq.
    apply app_inj_1 in Heq as [Hi Heq]; [|done].
    apply app_inj_1 in Heq as [Hk Hp]; [|by rewrite !Compress_length].
    auto using le64_inj.
  - by intros (-> & -> & ->).
Qed.

Lemma id_taken_true i r :
  id_taken i r = true <-> exists row, row ∈ votepackages r /\ id row = i.
Proof.
  unfold id_taken. induction (votepackages r) as [|x l IH]; simpl.
  - split; [done | intros (row & Hin & _); by apply elem_of_nil in Hin].
  - rewrite orb_true_iff, IH, bool_decide_eq_true. split.
    + intros [Hx | (row & Hin & Hrow)]; [exists x | exists row];
        split; auto; constructor; done.
    + intros (row & Hin & Hrow). apply elem_of_cons in Hin as [-> | Hin]; eauto.
Qed.

Lemma process_exists_true pid r :
  process_exists pid r = true <-> exists p, p ∈ processes r /\ p_id p = pid.
Proof.
  unfold process_exists. induction (processes r) as [|x l IH]; simpl.
  - split; [done | intros (p & Hin & _); by apply elem_of_nil in Hin].
  - rewrite orb_true_iff, IH, Z.eqb_eq. split.
    + intros [Hx | (p & Hin & Hp)]; [exists x | exists p];
        split; auto; constructor; done.
    + intros (p & Hin & Hp). apply elem_of_cons in Hin as [-> | Hin]; eauto.
Qed.

(** *** The conversion of the arguments *)

Lemma convert_uint64_None ordinal v :
  convert_uint64 ordinal v = None <-> v < 2 ^ 63.
Proof.
  unfold convert_uint64. destruct (Z.leb_spec (2 ^ 63) v); split; (done || lia).
Qed.

Lemma convert_uint64_Some ordinal v :
  2 ^ 63 <= v ->
  convert_uint64 ordinal v = Some (DriverError (high_bit_set ordinal)).
Proof.
  intros Hv. unfold convert_uint64. destruct (Z.leb_spec (2 ^ 63) v); [done | lia].
Qed.

Lemma high_bit_set_not_foreign_key ordinal :
  String.eqb (high_bit_set ordinal) foreign_key_failed = false.
Proof. reflexivity. Qed.

Lemma StoreVotePackage_unfold pid v r :
  StoreVotePackage pid v r =
  match stmt_Exec (row_of pid v r) r with
  | (Some err, r') =>
      if String.eqb (Error err) foreign_key_failed
      then (Some (Errorf ("Can not store VotePackage, ProcessID="
                          +:+ fmt_d pid +:+ " does not exist")), r')
      else (Some err, r')
  | (None, r') => (None, r')
  end.
Proof. unfold StoreVotePackage, row_of. by destruct (Weight (CensusProof_ v)). Qed.

Lemma StoreVotePackage_refused_index pid v r :
  2 ^ 63 <= Index (CensusProof_ v) ->
  StoreVotePackage pid v r = (Some (DriverError (high_bit_set 2)), r).
Proof.
  intros Hi. rewrite StoreVotePackage_unfold. unfold stmt_Exec.
  change (indx (row_of pid v r)) with (Index (CensusProof_ v)).
  by rewrite convert_uint64_Some.
Qed.

Lemma StoreVotePackage_refused_processID pid v r :
  Index (CensusProof_ v) < 2 ^ 63 -> 2 ^ 63 <= pid ->
  StoreVotePackage pid v r = (Some (DriverError (high_bit_set 8)), r).
Proof.
  intros Hi Hp. rewrite StoreVotePackage_unfold. unfold stmt_Exec.
  change (indx (row_of pid v r)) with (Index (CensusProof_ v)).
  change (processID (row_of pid v r)) with pid.
  rewrite (proj2 (convert_uint64_None 2 _) Hi).
  by rewrite convert_uint64_Some.
Qed.

Lemma StoreVotePackage_converted pid v r :
  Index (CensusProof_ v) < 2 ^ 63 -> pid < 2 ^ 63 ->
  StoreVotePackage pid v r =
  match exec_insert (row_of pid v r) r with
  | (Some err, r') =>
      if String.eqb (Error err) foreign_key_failed
      then (Some (Errorf ("Can not store VotePackage, ProcessID="
                          +:+ fmt_d pid +:+ " does not exist")), r')
      else (Some err, r')
  | (None, r') => (None, r')
  end.
Proof.
  intros Hi Hp. rewrite StoreVotePackage_unfold. unfold stmt_Exec.
  change (indx (row_of pid v r)) with (Index (CensusProof_ v)).
  change (processID (row_of pid v r)) with pid.
  rewrite (proj2 (convert_uint64_None 2 _) Hi).
  by rewrite (proj2 (convert_uint64_None 8 _) Hp).
Qed.

(** The three cases of the conversion. *)
Lemma StoreVotePackage_conversion pid v r :
  (2 ^ 63 <= Index (CensusProof_ v)
   /\ StoreVotePackage pid v r = (Some (DriverError (high_bit_set 2)), r))
  \/ (Index (CensusProof_ v) < 2 ^ 63 /\ 2 ^ 63 <= pid
      /\ StoreVotePackage pid v r = (Some (DriverError (high_bit_set 8)), r))
  \/ (Index (CensusProof_ v) < 2 ^ 63 /\ pid < 2 ^ 63).
Proof.
  destruct (Z_lt_le_dec (Index (CensusProof_ v)) (2 ^ 63)) as [Hi|Hi].
  - destruct (Z_lt_le_dec pid (2 ^ 63)) as [Hp|Hp]; [by right; right|].
    right; left. auto using StoreVotePackage_refused_processID.
  - left. auto using StoreVotePackage_refused_index.
Qed.

Lemma StoreVotePackage_ok_convertible pid v r r1 :
  StoreVotePackage pid v r = (None, r1) ->
  Index (CensusProof_ v) < 2 ^ 63 /\ pid < 2 ^ 63.
Proof.
  intros Hst.
  destruct (StoreVotePackage_conversion pid v r)
    as [[_ Hr]|[(_ & _ & Hr)|Hc]]; [congruence | congruence | done].
Qed.

Lemma StoreVotePackage_ok_inv pid v r r1 :
  StoreVotePackage pid v r = (None, r1) ->
  id_taken (id (row_of pid v r)) r = false /\
  process_exists pid r = true /\
  r1 = set_votepackages (votepackages r ++ [row_of pid v r]) r.
Proof.
  intros Hst. destruct (StoreVotePackage_ok_convertible _ _ _ _ Hst) as [Hi Hp].
  revert Hst. rewrite StoreVotePackage_converted by done. unfold exec_insert.
  destruct (id_taken _ r) eqn:Ht; simpl; [discriminate|].
  change (processID (row_of pid v r)) with pid.
  destruct (process_exists pid r) eqn:Hex; simpl; [|discriminate].
  intros [= <-]. done.
Qed.


(** C1, amended.  When a call of [StoreVotePackage] has succeeded and its
    row is still in the table, every later call with the same census
    index, the same compressed public key and the same process identifier
    fails; the error it returns is the driver's uniqueness error on the
    column [id], handed on as it is, and the store is unchanged by the
    failing call. *)
Lemma StoreVotePackage_duplicate pid v1 v2 r r1 r2 :
  Index (CensusProof_ v1) = Index (CensusProof_ v2) ->
  Compress (PublicKey (CensusProof_ v1)) = Compress (PublicKey (CensusProof_ v2)) ->
  StoreVotePackage pid v1 r = (None, r1) ->
  votepackages r1 ⊆ votepackages r2 ->
  StoreVotePackage pid v2 r2 = (Some (DriverError unique_failed), r2).
Proof.
  intros Hi Hk Hfirst Hsub.
  destruct (StoreVotePackage_ok_convertible _ _ _ _ Hfirst) as [Hidx Hpid].
  apply StoreVotePackage_ok_inv in Hfirst as (_ & _ & ->).
  rewrite StoreVotePackage_converted by (by rewrite <- ?Hi).
  unfold exec_insert.
  assert (Ht : id_taken (id (row_of pid v2 r2)) r2 = true).
  { apply id_taken_true. exists (row_of pid v1 r). split.
    - apply Hsub. simpl. apply elem_of_app. right. constructor.
    - simpl. rewrite !vote_id_layout. by rewrite Hi, Hk. }
  rewrite Ht. reflexivity.
Qed.

Lemma layout_processID i1 (k1 : bytes) p1 i2 (k2 : bytes) p2 :
  length k1 = length k2 -> is_uint64 p1 -> is_uint64 p2 ->
  le64 i1 ++ k1 ++ le64 p1 = le64 i2 ++ k2 ++ le64 p2 -> p1 = p2.
Proof.
  intros Hlen Hp1 Hp2 Heq.
  apply app_inj_1 in Heq as [_ Heq]; [|done].
  apply app_inj_1 in Heq as [_ Hp]; [|done].
  by apply le64_inj.
Qed.

Lemma store_ok_empty ps n t :
  store_ok {| processes := ps; votepackages := []; lastSyncBlockNum := n;
              CURRENT_TIMESTAMP := t |}.
Proof. intros row Hin. by apply elem_of_nil in Hin. Qed.

Lemma StoreVotePackage_error_unchanged pid v r err r1 :
  StoreVotePackage pid v r = (Some err, r1) -> r1 = r.
Proof.
  destruct (StoreVotePackage_conversion pid v r)
    as [[_ Hr]|[(_ & _ & Hr)|[Hi Hp]]]; [congruence | congruence |].
  rewrite StoreVotePackage_converted by done. unfold exec_insert.
  destruct (id_taken _ r); simpl; [by intros [= _ <-]|].
  destruct (process_exists _ r); simpl; [discriminate | by intros [= _ <-]].
Qed.

Lemma StoreVotePackage_store_ok pid v r res r1 :
  is_uint64 pid -> store_ok r ->
  StoreVotePackage pid v r = (res, r1) -> store_ok r1.
Proof.
  intros Hpid Hok Hst. destruct res as [err|].
  - by apply StoreVotePackage_error_unchanged in Hst as ->.
  - apply StoreVotePackage_ok_inv in Hst as (_ & Hp & ->).
    intros row Hin. simpl in Hin.
    apply elem_of_app in Hin as [Hin | Hin].
    + apply Hok in Hin. exact Hin.
    + apply list_elem_of_singleton in Hin as ->. simpl.
      rewrite vote_id_layout, Compress_length. auto.
Qed.

Lemma StoreVotePackage_rows_kept pid v r res r1 :
  StoreVotePackage pid v r = (res, r1) -> votepackages r ⊆ votepackages r1.
Proof.
  intros Hst. destruct res as [err|].
  - by apply StoreVotePackage_error_unchanged in Hst as ->.
  - apply StoreVotePackage_ok_inv in Hst as (_ & _ & ->).
    intros row Hin. simpl. apply elem_of_app. by left.
Qed.

(** No row of a consistent table can have the id of a vote package for a
    process that does not exist. *)
Lemma id_free_without_process pid v r :
  store_ok r -> is_uint64 pid -> process_exists pid r = false ->
  id_taken (id (row_of pid v r)) r = false.
Proof.
  intros Hok Hpid Hno. apply not_true_is_false. intros Ht%id_taken_true.
  destruct Ht as (row & Hin & Hid).
  destruct (Hok row Hin) as (Hrow & Hlen & Hrange & Hex).
  simpl in Hid. rewrite Hrow, vote_id_layout in Hid.
  apply layout_processID in Hid; [|by rewrite Compress_length|done..].
  rewrite Hid in Hex. congruence.
Qed.

(** C5, amended.  A call of [StoreVotePackage] with a process identifier
    for which no process record exists fails and leaves the store as it
    was: no vote package is persisted.  When the census index and the
    process identifier are below 2^63 the error is the one built by
    [StoreVotePackage] itself, whose message names the process identifier;
    otherwise it is the error of the conversion of the argument, handed
    on as it is. *)
Lemma StoreVotePackage_unknown_process pid v r :
  store_ok r -> is_uint64 pid -> process_exists pid r = false ->
  (exists err, StoreVotePackage pid v r = (Some err, r))
  /\ (Index (CensusProof_ v) < 2 ^ 63 -> pid < 2 ^ 63 ->
      StoreVotePackage pid v r =
        (Some (Errorf ("Can not store VotePackage, ProcessID=" +:+ fmt_d pid
                       +:+ " does not exist")), r))
  /\ (2 ^ 63 <= Index (CensusProof_ v) ->
      StoreVotePackage pid v r = (Some (DriverError (high_bit_set 2)), r))
  /\ (Index (CensusProof_ v) < 2 ^ 63 -> 2 ^ 63 <= pid ->
      StoreVotePackage pid v r = (Some (DriverError (high_bit_set 8)), r)).
Proof.
  intros Hok Hpid Hno.
  assert (Htyped : Index (CensusProof_ v) < 2 ^ 63 -> pid < 2 ^ 63 ->
            StoreVotePackage pid v r =
              (Some (Errorf ("Can not store VotePackage, ProcessID="
                             +:+ fmt_d pid +:+ " does not exist")), r)).
  { intros Hi Hp. rewrite StoreVotePackage_converted by done.
    unfold exec_insert. rewrite id_free_without_process by done.
    change (processID (row_of pid v r)) with pid. by rewrite Hno. }
  split; [|split; [done|split]].
  - destruct (StoreVotePackage_conversion pid v r)
      as [[_ Hr]|[(_ & _ & Hr)|[Hi Hp]]]; eauto.
  - apply StoreVotePackage_refused_index.
  - apply StoreVotePackage_refused_processID.
Qed.

(** *** Reading back *)

#[local] Instance indx_le_total : Total indx_le.
Proof. intros a b. unfold indx_le. lia. Qed.

#[local] Instance indx_le_trans : Transitive indx_le.
Proof. intros a b c. unfold indx_le. lia. Qed.

Lemma scan_row_inl row v' : scan_row row = inl v' -> row_returned row v'.
Proof.
  unfold scan_row, row_returned.
  destruct (Decompress (publicKey row)) as [pk|err]; [|discriminate].
  intros [= <-]. simpl. done.
Qed.

Lemma scan_row_decompressed row pk :
  Decompress (publicKey row) = inl pk -> exists v', scan_row row = inl v'.
Proof. intros Hd. unfold scan_row. rewrite Hd. eauto. Qed.

Lemma scan_row_refused row err :
  Decompress (publicKey row) = inr err ->
  scan_row row = inr (scan_error 2 "publicKey" err).
Proof. intros Hd. unfold scan_row. by rewrite Hd. Qed.

(** A loop that ends without error has scanned every row. *)
Lemma scan_rows_None rows acc votes :
  scan_rows rows acc = (votes, None) ->
  exists new, votes = acc ++ new /\ Forall2 row_returned rows new.
Proof.
  revert acc. induction rows as [|row rows IH]; intros acc; simpl.
  - intros [= <-]. exists []. by rewrite app_nil_r.
  - destruct (scan_row row) as [v'|err] eqn:Hrow; [|discriminate].
    intros Hrest. apply IH in Hrest as (new & -> & Hnew).
    exists (v' :: new). split; [by rewrite <- app_assoc|].
    constructor; [by apply scan_row_inl | done].
Qed.

Lemma scan_rows_Some rows acc votes err :
  scan_rows rows acc = (votes, Some err) ->
  votes = []
  /\ exists row e, row ∈ rows /\ Decompress (publicKey row) = inr e.
Proof.
  revert acc. induction rows as [|row rows IH]; intros acc; simpl; [discriminate|].
  unfold scan_row at 1.
  destruct (Decompress (publicKey row)) as [pk|e] eqn:Hd.
  - intros Hrest. apply IH in Hrest as (-> & row' & e & Hin & He).
    split; [done|]. exists row', e. split; [by constructor | done].
  - intros [= <- _]. split; [done|]. exists row, e. split; [constructor | done].
Qed.

Lemma scan_rows_total rows acc :
  (forall row, row ∈ rows -> exists pk, Decompress (publicKey row) = inl pk) ->
  exists votes, scan_rows rows acc = (votes, None).
Proof.
  intros Hall. destruct (scan_rows rows acc) as [votes [err|]] eqn:Hs; [|eauto].
  apply scan_rows_Some in Hs as (_ & row & e & Hin & He).
  destruct (Hall row Hin) as [pk Hpk]. congruence.
Qed.

Lemma scan_rows_fails rows acc row e :
  row ∈ rows -> Decompress (publicKey row) = inr e ->
  exists err, scan_rows rows acc = ([], Some err).
Proof.
  intros Hin He. destruct (scan_rows rows acc) as [votes [err|]] eqn:Hs.
  - apply scan_rows_Some in Hs as (-> & _). eauto.
  - apply scan_rows_None in Hs as (new & _ & Hnew).
    apply list_elem_of_lookup in Hin as [i Hi].
    destruct (Forall2_lookup_l _ _ _ _ _ Hnew Hi) as (v' & _ & Hret).
    destruct Hret as (_ & _ & Hd & _). congruence.
Qed.

Lemma query_votepackages_rows pid r :
  query_votepackages pid r
    ≡ₚ filter (fun row => processID row = pid) (votepackages r).
Proof. unfold query_votepackages. apply merge_sort_Permutation. Qed.

Lemma query_votepackages_elem pid r row :
  row ∈ query_votepackages pid r <-> processID row = pid /\ row ∈ votepackages r.
Proof.
  rewrite query_votepackages_rows.
  apply (list_elem_of_filter (fun row => processID row = pid)).
Qed.

Lemma query_votepackages_sorted pid r :
  StronglySorted indx_le (query_votepackages pid r).
Proof. apply StronglySorted_merge_sort; apply _. Qed.

(** A read that returns no error has scanned the rows of the process. *)
Lemma ReadVotePackagesByProcessID_None pid r votes :
  ReadVotePackagesByProcessID pid r = (votes, None) ->
  pid < 2 ^ 63 /\ Forall2 row_returned (query_votepackages pid r) votes.
Proof.
  unfold ReadVotePackagesByProcessID, convert_uint64.
  destruct (Z.leb_spec (2 ^ 63) pid); [discriminate|].
  intros Hs. split; [done|].
  by apply scan_rows_None in Hs as (new & -> & Hnew).
Qed.

Lemma ReadVotePackagesByProcessID_readable pid r :
  pid < 2 ^ 63 -> readable pid r ->
  exists votes, ReadVotePackagesByProcessID pid r = (votes, None).
Proof.
  intros Hp Hr. unfold ReadVotePackagesByProcessID.
  rewrite (proj2 (convert_uint64_None 1 _) Hp).
  apply scan_rows_total. intros row [Hpid Hin]%query_votepackages_elem.
  by apply Hr.
Qed.

Lemma row_returned_sorted rows votes :
  Forall2 row_returned rows votes ->
  StronglySorted indx_le rows -> StronglySorted Index_le votes.
Proof.
  induction 1 as [|row v' rows votes Hret Hrest IH]; intros Hs; [constructor|].
  apply StronglySorted_inv in Hs as [Hs Hall]. constructor; [by apply IH|].
  clear IH Hs. destruct Hret as (_ & Hidx & _).
  induction Hrest as [|row2 v2 rows votes Hret2 Hrest IH]; [constructor|].
  apply Forall_cons in Hall as [Hle Hall]. constructor; [|by apply IH].
  destruct Hret2 as (_ & Hidx2 & _). unfold Index_le, indx_le in *. lia.
Qed.

(** C6, amended.  For a process identifier below 2^63 whose stored keys
    all decompress, [ReadVotePackagesByProcessID] returns, without error,
    exactly the vote packages stored for that process: one for each row of
    the process and no other, each with the columns of its row, in
    ascending order of their census index.  For a process identifier of
    2^63 or more, or when a stored key of the process does not
    decompress, it returns no vote package and an error. *)
Lemma ReadVotePackagesByProcessID_sorted pid r :
  (pid < 2 ^ 63 -> readable pid r ->
   exists votes rows,
     ReadVotePackagesByProcessID pid r = (votes, None)
     /\ rows ≡ₚ filter (fun row => processID row = pid) (votepackages r)
     /\ Forall2 row_returned rows votes
     /\ StronglySorted Index_le votes)
  /\ (2 ^ 63 <= pid ->
      ReadVotePackagesByProcessID pid r
      = ([], Some (DriverError (high_bit_set 1))))
  /\ (pid < 2 ^ 63 ->
      (exists row e, row ∈ votepackages r /\ processID row = pid
                     /\ Decompress (publicKey row) = inr e) ->
      exists err, ReadVotePackagesByProcessID pid r = ([], Some err)).
Proof.
  split; [|split].
  - intros Hp Hr.
    destruct (ReadVotePackagesByProcessID_readable pid r Hp Hr) as [votes Hread].
    exists votes, (query_votepackages pid r).
    destruct (ReadVotePackagesByProcessID_None _ _ _ Hread) as [_ Hret].
    split; [done|]. split; [apply query_votepackages_rows|]. split; [done|].
    eapply row_returned_sorted; [done | apply query_votepackages_sorted].
  - intros Hp. unfold ReadVotePackagesByProcessID.
    by rewrite convert_uint64_Some.
  - intros Hp (row & e & Hin & Hpid & He). unfold ReadVotePackagesByProcessID.
    rewrite (proj2 (convert_uint64_None 1 _) Hp).
    apply scan_rows_fails with row e; [|done].
    by apply query_votepackages_elem.
Qed.

(** *** Weights *)

Lemma le_digits_decode fuel n :
  0 <= n < 2 ^ Z.of_nat fuel -> decode_le (le_digits fuel n) = n.
Proof.
  revert n. induction fuel as [|fuel IH]; intros n Hn.
  - simpl in *. lia.
  - simpl le_digits. destruct (Z.eqb_spec n 0) as [->|Hne]; [done|].
    simpl decode_le. fold (decode_le (le_digits fuel (n / 256))).
    rewrite Nat2Z.inj_succ, Z.pow_succ_r in Hn by lia.
    pose proof (Z.div_mod n 256 ltac:(lia)).
    pose proof (Z.mod_pos_bound n 256 ltac:(lia)).
    rewrite IH; lia.
Qed.

Lemma big_SetBytes_Bytes w : 0 <= w -> big_SetBytes (big_Bytes w) = w.
Proof.
  intros Hw. unfold big_SetBytes, big_Bytes.
  rewrite <- fold_left_rev_right, rev_involutive.
  rewrite Z.abs_eq by done.
  apply le_digits_decode. split; [done|].
  rewrite Nat2Z.inj_succ, Z2Nat.id by apply Z.log2_nonneg.
  destruct (Z.eq_dec w 0) as [->|Hne]; [done|].
  apply Z.log2_spec. lia.
Qed.

Lemma big_SetBytes_Bytes_abs w : big_SetBytes (big_Bytes w) = Z.abs w.
Proof.
  rewrite <- (big_SetBytes_Bytes (Z.abs w)) by lia.
  unfold big_Bytes. by rewrite Z.abs_idemp.
Qed.

(** What is read from the row of a stored vote package. *)
Lemma row_returned_row_of pid v r v' :
  row_returned (row_of pid v r) v' <-> returned_for v v'.
Proof.
  unfold row_returned, returned_for. simpl.
  by rewrite big_SetBytes_Bytes_abs.
Qed.

(** A stored vote package is among those a read without error returns. *)
Lemma stored_then_returned pid v r r1 r2 votes :
  StoreVotePackage pid v r = (None, r1) ->
  votepackages r1 ⊆ votepackages r2 ->
  ReadVotePackagesByProcessID pid r2 = (votes, None) ->
  exists v', v' ∈ votes /\ returned_for v v'.
Proof.
  intros Hst Hsub Hread.
  apply StoreVotePackage_ok_inv in Hst as (_ & _ & ->).
  apply ReadVotePackagesByProcessID_None in Hread as [_ Hret].
  assert (Hin : row_of pid v r ∈ query_votepackages pid r2).
  { apply query_votepackages_elem. split; [done|].
    apply Hsub. simpl. apply elem_of_app. right. constructor. }
  apply list_elem_of_lookup in Hin as [i Hi].
  destruct (Forall2_lookup_l _ _ _ _ _ Hret Hi) as (v' & Hv' & Hrow).
  exists v'. split; [by eapply list_elem_of_lookup_2|].
  by apply row_returned_row_of in Hrow.
Qed.

(** C7, amended.  A vote package stored by [StoreVotePackage] and returned
    by a later [ReadVotePackagesByProcessID] comes back with the absolute
    value of its weight, an absent (nil) weight being stored as 0: the
    weight read back is equal to the stored one when that is not
    negative, and is 0 when it was nil. *)
Lemma StoreVotePackage_weight_read_back pid v r r1 r2 votes :
  StoreVotePackage pid v r = (None, r1) ->
  votepackages r1 ⊆ votepackages r2 ->
  ReadVotePackagesByProcessID pid r2 = (votes, None) ->
  exists v',
    v' ∈ votes
    /\ Index (CensusProof_ v') = Index (CensusProof_ v)
    /\ Decompress (Compress (PublicKey (CensusProof_ v)))
       = inl (PublicKey (CensusProof_ v'))
    /\ MerkleProof (CensusProof_ v') = MerkleProof (CensusProof_ v)
    /\ Vote v' = Vote v
    /\ Weight (CensusProof_ v')
       = Some (Z.abs (default 0 (Weight (CensusProof_ v))))
    /\ (weight_in_domain v ->
        Weight (CensusProof_ v') = Some (default 0 (Weight (CensusProof_ v))))
    /\ (Weight (CensusProof_ v) = None -> Weight (CensusProof_ v') = Some 0).
Proof.
  intros Hst Hsub Hread.
  destruct (stored_then_returned _ _ _ _ _ _ Hst Hsub Hread)
    as (v' & Hin & _ & Hidx & Hkey & Hw & Hm & Hv).
  exists v'. repeat (split; [done|]). split.
  - intros Hdom. rewrite Hw. f_equal. unfold weight_in_domain in Hdom.
    destruct (Weight (CensusProof_ v)); simpl; lia.
  - intros Hnil. rewrite Hw, Hnil. done.
Qed.

(** *** The invariant under the methods of the process table *)

Lemma process_exists_map_status pid f r :
  (forall p, p_id (f p) = p_id p) ->
  process_exists pid (set_processes (map f (processes r)) r) = process_exists pid r.
Proof.
  intros Hf. unfold process_exists. simpl.
  induction (processes r) as [|p ps IH]; simpl; [done|].
  by rewrite Hf, IH.
Qed.

Lemma UpdateProcessStatus_store_ok pid s r :
  store_ok r -> store_ok (UpdateProcessStatus pid s r).2.
Proof.
  intros Hok row Hin. destruct (Hok row Hin) as (Hid & Hlen & Hr & Hex).
  do 3 (split; [done|]).
  unfold UpdateProcessStatus. cbn [snd].
  rewrite process_exists_map_status; [done|].
  intros p. by destruct (p_id p =? pid).
Qed.

Lemma FrozeProcessesByCurrentBlockNum_store_ok blockNum r :
  store_ok r -> store_ok (FrozeProcessesByCurrentBlockNum blockNum r).2.
Proof.
  intros Hok row Hin. destruct (Hok row Hin) as (Hid & Hlen & Hr & Hex).
  do 3 (split; [done|]).
  unfold FrozeProcessesByCurrentBlockNum. cbn [snd].
  rewrite process_exists_map_status; [done|].
  intros p. by destruct (_ && _).
Qed.

Lemma UpdateLastSyncBlockNum_store_ok blockNum r :
  store_ok r -> store_ok (UpdateLastSyncBlockNum blockNum r).2.
Proof. intros Hok row Hin. exact (Hok row Hin). Qed.

Lemma StoreProcess_store_ok pid root size blk start window minp typ r :
  store_ok r ->
  store_ok (StoreProcess pid root size blk start window minp typ r).2.
Proof.
  intros Hok. unfold StoreProcess.
  destruct (process_exists pid r) eqn:Hp; [done|].
  intros row Hin. destruct (Hok row Hin) as (Hid & Hlen & Hr & Hex).
  do 3 (split; [done|]).
  unfold process_exists in *. cbn [snd set_processes processes].
  by rewrite existsb_app, Hex.
Qed.

Lemma run_calls_store_ok calls r :
  Forall well_typed calls -> store_ok r -> store_ok (run_calls calls r).
Proof.
  intros Hty. revert r. unfold run_calls.
  induction Hty as [|c calls Hc _ IH]; intros r Hok; simpl; [done|].
  apply IH. destruct c as [pid v| | | |]; simpl.
  - destruct (StoreVotePackage pid v r) as [res r'] eqn:Hst.
    by apply (StoreVotePackage_store_ok _ _ _ _ _ Hc Hok Hst).
  - by apply StoreProcess_store_ok.
  - by apply UpdateProcessStatus_store_ok.
  - by apply FrozeProcessesByCurrentBlockNum_store_ok.
  - by apply UpdateLastSyncBlockNum_store_ok.
Qed.

End VotePackages.

(** ** The synchronization engine, over any store and any decoder *)

Section EngineFacts.
Import Go Types Eth.
Context {D : Type} {store : ProcessStore D} {decoder : EventDecoder}.

Lemma processEventLog_default eventLog (w : World D) :
  unrecognized eventLog ->
  processEventLog eventLog w =
    (Some (unrecognized_error eventLog), after_unrecognized eventLog w).
Proof.
  intros (Hn & Hr & Hc). unfold processEventLog.
  destruct (Z.eqb_spec (len (Data eventLog)) eventNewProcessLen); [done|].
  destruct (Z.eqb_spec (len (Data eventLog)) eventResultPublishedLen); [done|].
  destruct (Z.eqb_spec (len (Data eventLog)) eventProcessClosedLen); [done|].
  reflexivity.
Qed.

Lemma process_and_log_default eventLog (w : World D) :
  unrecognized eventLog ->
  process_and_log eventLog w = (tt, after_unrecognized_logged eventLog w).
Proof.
  intros Hu. unfold process_and_log, bind.
  rewrite processEventLog_default by done. reflexivity.
Qed.

Lemma syncEventsHistory_returns_nil c startBlock endBlock logs (w : World D) :
  FilterLogs (client c)
    {| FromBlock := Some startBlock; ToBlock := Some endBlock;
       Addresses := [contractAddr c] |} = inl logs ->
  syncEventsHistory c startBlock endBlock w = (None, (for_logs logs w).2).
Proof.
  intros Hq. unfold syncEventsHistory. rewrite Hq. unfold bind, ret.
  by destruct (for_logs logs w).
Qed.

(** C2.  For an event log whose payload length is none of 288, 160 and
    96, [processEventLog] returns the unrecognized-event error, whose
    message carries the length, calls no method of the store (the database
    is the same, whatever the store is), and the loops around it log the
    error and go on with the next event: the [for] loop of
    [syncEventsHistory], which still returns nil, and the loop of
    [syncEventsLive]. *)
Lemma processEventLog_unrecognized eventLog (w : World D) :
  unrecognized eventLog ->
  processEventLog eventLog w =
    (Some (unrecognized_error eventLog), after_unrecognized eventLog w)
  /\ w_db (after_unrecognized eventLog w) = w_db w
  /\ w_db (after_unrecognized_logged eventLog w) = w_db w
  /\ (forall logs,
        for_logs (eventLog :: logs) w
        = for_logs logs (after_unrecognized_logged eventLog w))
  /\ (forall received,
        forever syncEventsLive_select (NewLog eventLog :: received) w
        = forever syncEventsLive_select received
            (after_unrecognized_logged eventLog w))
  /\ (forall c startBlock endBlock before after,
        FilterLogs (client c)
          {| FromBlock := Some startBlock; ToBlock := Some endBlock;
             Addresses := [contractAddr c] |}
        = inl (before ++ eventLog :: after) ->
        (syncEventsHistory c startBlock endBlock w).1 = None).
Proof.
  intros Hu. split; [by apply processEventLog_default|].
  split; [done|]. split; [done|]. split; [|split].
  - intros logs. simpl. unfold bind at 1.
    by rewrite process_and_log_default.
  - intros received. simpl. unfold bind at 1.
    by rewrite process_and_log_default.
  - intros c startBlock endBlock before after Hq.
    by rewrite (syncEventsHistory_returns_nil _ _ _ _ _ Hq).
Qed.

(** C4.  For a decoded ResultPublished event (160-byte payload),
    [processEventLog] writes one debug line and returns nil: no method of
    the store is called and the database is the same, whatever the store
    is. *)
Lemma processEventLog_ResultPublished eventLog e (w : World D) :
  len (Data eventLog) = eventResultPublishedLen ->
  parseEventResultPublished (Data eventLog) = inl e ->
  processEventLog eventLog w =
    (None,
     {| w_db := w_db w;
        w_log := w_log w ++
          [LogDebug ("Event: (blocknum: " +:+ fmt_d (BlockNumber eventLog)
                     +:+ ") " +:+ string_ResultPublished e)];
        w_stdout := w_stdout w |}).
Proof.
  intros Hlen He. unfold processEventLog. rewrite Hlen, He. reflexivity.
Qed.

(** On a decoded ProcessClosed event the method [UpdateProcessStatus] is
    called with [ProcessStatusContractClosed], with no test of the state
    before. *)
Lemma processEventLog_ProcessClosed_call eventLog e (w : World D) :
  len (Data eventLog) = eventProcessClosedLen ->
  parseEventProcessClosed (Data eventLog) = inl e ->
  w_db (processEventLog eventLog w).2 =
    (db_UpdateProcessStatus (pc_ProcessID e) ProcessStatusContractClosed (w_db w)).2
  /\ ((processEventLog eventLog w).1 = None <->
      (db_UpdateProcessStatus (pc_ProcessID e) ProcessStatusContractClosed (w_db w)).1 = None).
Proof.
  intros Hlen He. unfold processEventLog. rewrite Hlen, He. simpl.
  unfold bind, log_Debugf, call_db, ret. simpl.
  destruct (db_UpdateProcessStatus _ _ _) as [[err|] d]; simpl; done.
Qed.

(** None of the paths that handle a log event uses
    [UpdateLastSyncBlockNum]: they are the same function whatever that
    method is. *)
Lemma log_paths_ignore_UpdateLastSyncBlockNum upd :
  (forall eventLog,
     @processEventLog D store decoder eventLog
     = @processEventLog D (with_UpdateLastSyncBlockNum upd store) decoder eventLog)
  /\ (forall c startBlock endBlock,
        @syncEventsHistory D store decoder c startBlock endBlock
        = @syncEventsHistory D (with_UpdateLastSyncBlockNum upd store) decoder
            c startBlock endBlock)
  /\ (forall c startBlock,
        @syncHistory D store decoder c startBlock
        = @syncHistory D (with_UpdateLastSyncBlockNum upd store) decoder
            c startBlock)
  /\ (forall c received,
        @syncEventsLive D store decoder c received
        = @syncEventsLive D (with_UpdateLastSyncBlockNum upd store) decoder
            c received).
Proof. repeat split. Qed.

End EngineFacts.

(** ** The synchronization engine over the SQLite store *)

Section EngineOnSQLite.
Import Go Types DB Eth.
Context {decoder : EventDecoder}.

Lemma lookup_status_update pid s ps s0 :
  lookup_status pid ps = Some s0 ->
  lookup_status pid
    (map (fun p => if p_id p =? pid then set_status s p else p) ps) = Some s.
Proof.
  induction ps as [|p ps IH]; simpl; [discriminate|].
  destruct (Z.eqb_spec (p_id p) pid) as [Heq|Hne]; simpl.
  - intros _. by rewrite Heq, Z.eqb_refl.
  - intros Hs. destruct (Z.eqb_spec (p_id p) pid); [done | auto].
Qed.

Lemma lookup_status_update_other pid pid' s ps :
  pid' <> pid ->
  lookup_status pid'
    (map (fun p => if p_id p =? pid then set_status s p else p) ps)
  = lookup_status pid' ps.
Proof.
  intros Hne. induction ps as [|p ps IH]; simpl; [done|].
  rewrite IH. destruct (Z.eqb_spec (p_id p) pid) as [Heq|Hne']; simpl; [|done].
  destruct (Z.eqb_spec (p_id p) pid'); [congruence | done].
Qed.

(** C3.  For a decoded ProcessClosed event (96-byte payload),
    [processEventLog] returns nil and leaves the referenced process with
    status [ProcessStatusContractClosed], whatever its status [s] was
    before; the other processes keep theirs. *)
Lemma processEventLog_ProcessClosed eventLog e (w : World SQLite) s :
  len (Data eventLog) = eventProcessClosedLen ->
  parseEventProcessClosed (Data eventLog) = inl e ->
  status_of (pc_ProcessID e) (w_db w) = Some s ->
  (processEventLog eventLog w).1 = None
  /\ status_of (pc_ProcessID e) (w_db (processEventLog eventLog w).2)
     = Some ProcessStatusContractClosed
  /\ (forall pid, pid <> pc_ProcessID e ->
        status_of pid (w_db (processEventLog eventLog w).2)
        = status_of pid (w_db w)).
Proof.
  intros Hlen He Hs.
  destruct (processEventLog_ProcessClosed_call eventLog e w Hlen He) as [Hdb Herr].
  split; [by apply Herr|]. rewrite Hdb. simpl. unfold status_of. simpl. split.
  - by apply lookup_status_update with s.
  - intros pid Hne. by apply lookup_status_update_other.
Qed.

(** *** The checkpoint *)

Lemma processEventLog_checkpoint eventLog (w : World SQLite) :
  checkpoint (processEventLog eventLog w).2 = checkpoint w.
Proof.
  unfold processEventLog, checkpoint.
  repeat match goal with
         | |- context [if ?b then _ else _] => destruct b
         | |- context [match ?x with inl _ => _ | inr _ => _ end] => destruct x
         end; simpl; try reflexivity.
  all: unfold bind, call_db, log_Debugf, ret; simpl.
  - unfold StoreProcess. by destruct (process_exists _ _).
Qed.

Lemma process_and_log_checkpoint eventLog (w : World SQLite) :
  checkpoint (process_and_log eventLog w).2 = checkpoint w.
Proof.
  unfold process_and_log, bind.
  pose proof (processEventLog_checkpoint eventLog w) as Hc.
  destruct (processEventLog eventLog w) as [[err|] w']; simpl in *; done.
Qed.

Lemma perform_checkpoint a (w : World SQLite) :
  checkpoint (perform a w).2 = checkpoint_after a (checkpoint w).
Proof.
  destruct a as [[err|number]|[err|vLog]|eventLog|currBlockNum]; simpl;
    try reflexivity; auto using process_and_log_checkpoint.
Qed.

Lemma for_logs_checkpoint logs (w : World SQLite) :
  checkpoint (for_logs logs w).2 = checkpoint w.
Proof.
  revert w. induction logs as [|eventLog logs IH]; intros w; simpl; [done|].
  unfold bind. pose proof (process_and_log_checkpoint eventLog w) as Hc.
  destruct (process_and_log eventLog w) as [[] w']. rewrite IH. exact Hc.
Qed.

Lemma syncEventsHistory_checkpoint c startBlock endBlock (w : World SQLite) :
  checkpoint (syncEventsHistory c startBlock endBlock w).2 = checkpoint w.
Proof.
  unfold syncEventsHistory. destruct (FilterLogs _ _) as [logs|err].
  - unfold bind, ret. pose proof (for_logs_checkpoint logs w).
    by destruct (for_logs logs w).
  - reflexivity.
Qed.

Lemma syncHistory_checkpoint c startBlock (w : World SQLite) :
  checkpoint (syncHistory c startBlock w).2 = checkpoint w.
Proof.
  unfold syncHistory. destruct (HeaderByNumber _) as [currBlockNum|err];
    [|reflexivity].
  unfold bind at 1. simpl. unfold bind at 1.
  match goal with |- context [syncEventsHistory ?c ?s ?e ?w0] =>
    pose proof (syncEventsHistory_checkpoint c s e w0) as Hc;
    destruct (syncEventsHistory c s e w0) as [[err|] w'] end;
    simpl in *; exact Hc.
Qed.

Lemma syncEventsLive_checkpoint c received (w : World SQLite) :
  checkpoint (syncEventsLive c received w).2 = checkpoint w.
Proof.
  unfold syncEventsLive. destruct (SubscribeFilterLogs _ _); [reflexivity|].
  unfold bind, ret.
  assert (Hc : checkpoint (forever syncEventsLive_select received w).2 = checkpoint w).
  { revert w. induction received as [|m received IH]; intros w; simpl; [done|].
    unfold bind.
    pose proof (perform_checkpoint (LiveLog m) w) as Hm. simpl in Hm.
    destruct (syncEventsLive_select m w) as [[] w']. rewrite IH. exact Hm. }
  by destruct (forever syncEventsLive_select received w).
Qed.

Lemma execution_checkpoints actions (w : World SQLite) :
  checkpoint <$> execution actions w = checkpoint_trace (checkpoint w) actions.
Proof.
  revert w. induction actions as [|a actions IH]; intros w; simpl; [done|].
  f_equal. rewrite IH. by rewrite perform_checkpoint.
Qed.

End EngineOnSQLite.

(** ** The theorems at concrete inputs *)

Section Concrete.
Import Go Types DB Eth Examples.

Lemma vote_id_injective_witness :
  @vote_id NumberedKeys 3 5 1 = @vote_id NumberedKeys 259 5 1 <->
  3 = 259 /\ @Compress NumberedKeys 5 = @Compress NumberedKeys 5 /\ 1 = 1.
Proof.
  apply (@vote_id_injective NumberedKeys 3 5 1 259 5 1);
    unfold is_uint64; split; (lia || reflexivity).
Defined.

Lemma StoreVotePackage_duplicate_witness :
  StoreVotePackage 1 (vote_of 3 5 (Some 4)) r1
  = (Some (DriverError unique_failed), r1).
Proof.
  apply (StoreVotePackage_duplicate 1 (vote_of 3 5 None) (vote_of 3 5 (Some 4))
           r0 r1 r1).
  - reflexivity.
  - reflexivity.
  - vm_compute. reflexivity.
  - intros row Hrow. exact Hrow.
Defined.

Lemma StoreVotePackage_duplicate_counterexample :
  StoreVotePackage 1 (vote_of 3 5 None) r0 = (None, r1)
  /\ StoreVotePackage 1 (vote_of 3 5 None) r1
     = (Some (DriverError "UNIQUE constraint failed: votepackages.id"), r1)
  /\ built_by_Errorf
       (DriverError "UNIQUE constraint failed: votepackages.id") = false.
Proof. split; [|split]; vm_compute; reflexivity. Qed.

Lemma StoreVotePackage_unknown_process_witness :
  (exists err, StoreVotePackage 2 (vote_of 3 5 None) r0 = (Some err, r0))
  /\ (Index (CensusProof_ (vote_of 3 5 None)) < 2 ^ 63 -> 2 < 2 ^ 63 ->
      StoreVotePackage 2 (vote_of 3 5 None) r0 =
        (Some (Errorf ("Can not store VotePackage, ProcessID=" +:+ fmt_d 2
                       +:+ " does not exist")), r0))
  /\ (2 ^ 63 <= Index (CensusProof_ (vote_of 3 5 None)) ->
      StoreVotePackage 2 (vote_of 3 5 None) r0
      = (Some (DriverError (high_bit_set 2)), r0))
  /\ (Index (CensusProof_ (vote_of 3 5 None)) < 2 ^ 63 -> 2 ^ 63 <= 2 ->
      StoreVotePackage 2 (vote_of 3 5 None) r0
      = (Some (DriverError (high_bit_set 8)), r0)).
Proof.
  apply (StoreVotePackage_unknown_process 2 (vote_of 3 5 None) r0).
  - apply store_ok_empty.
  - unfold is_uint64. split; [lia | reflexivity].
  - reflexivity.
Defined.

Lemma StoreVotePackage_unknown_process_counterexample :
  is_uint64 (2 ^ 64 - 1)
  /\ process_exists (2 ^ 64 - 1) r0 = false
  /\ StoreVotePackage (2 ^ 64 - 1) (vote_of 3 5 None) r0
     = (Some (DriverError
                "sql: converting argument $8 type: uint64 values with high bit set are not supported"),
        r0)
  /\ built_by_Errorf
       (DriverError
          "sql: converting argument $8 type: uint64 values with high bit set are not supported")
     = false.
Proof.
  split; [|split; [|split]]; try reflexivity.
  unfold is_uint64. split; [lia | reflexivity].
Qed.

Lemma ReadVotePackagesByProcessID_sorted_witness :
  exists votes rows,
    ReadVotePackagesByProcessID 1 r1 = (votes, None)
    /\ rows ≡ₚ filter (fun row => processID row = 1) (votepackages r1)
    /\ Forall2 row_returned rows votes
    /\ StronglySorted Index_le votes.
Proof.
  apply (proj1 (ReadVotePackagesByProcessID_sorted 1 r1)).
  - reflexivity.
  - intros row Hin _. apply list_elem_of_singleton in Hin as ->.
    exists 5. reflexivity.
Defined.

Lemma ReadVotePackagesByProcessID_sorted_counterexample :
  StoreVotePackage 1 (vote_of 3 6 None) r0 = (None, r6)
  /\ length (filter (fun row => processID row = 1) (votepackages r6)) = 1%nat
  /\ (exists e,
        Decompress (Compress (PublicKey (CensusProof_ (vote_of 3 6 None))))
        = inr e
        /\ ReadVotePackagesByProcessID 1 r6
           = ([], Some (DriverError
                          ("sql: Scan error on column index 2, name " +:+ quote
                           +:+ "publicKey" +:+ quote +:+ ": " +:+ Error e))))
  /\ ReadVotePackagesByProcessID (2 ^ 63) r6
     = ([], Some (DriverError
                    "sql: converting argument $1 type: uint64 values with high bit set are not supported")).
Proof.
  split; [|split; [|split]]; try reflexivity.
  eexists. split; reflexivity.
Qed.

Lemma StoreVotePackage_weight_read_back_witness :
  exists v',
    v' ∈ (ReadVotePackagesByProcessID 1 r1).1
    /\ Index (CensusProof_ v') = Index (CensusProof_ (vote_of 3 5 None))
    /\ Decompress (Compress (PublicKey (CensusProof_ (vote_of 3 5 None))))
       = inl (PublicKey (CensusProof_ v'))
    /\ MerkleProof (CensusProof_ v') = MerkleProof (CensusProof_ (vote_of 3 5 None))
    /\ Vote v' = Vote (vote_of 3 5 None)
    /\ Weight (CensusProof_ v')
       = Some (Z.abs (default 0 (Weight (CensusProof_ (vote_of 3 5 None)))))
    /\ (weight_in_domain (vote_of 3 5 None) ->
        Weight (CensusProof_ v')
        = Some (default 0 (Weight (CensusProof_ (vote_of 3 5 None)))))
    /\ (Weight (CensusProof_ (vote_of 3 5 None)) = None ->
        Weight (CensusProof_ v') = Some 0).
Proof.
  apply (StoreVotePackage_weight_read_back 1 (vote_of 3 5 None) r0 r1 r1).
  - reflexivity.
  - intros row Hrow. exact Hrow.
  - reflexivity.
Defined.

Lemma StoreVotePackage_weight_read_back_counterexample :
  StoreVotePackage 1 (vote_of 3 5 (Some (-5))) r0 = (None, rneg)
  /\ exists v',
       ReadVotePackagesByProcessID 1 rneg = ([v'], None)
       /\ Weight (CensusProof_ v') = Some 5
       /\ Weight (CensusProof_ v') <> Weight (CensusProof_ (vote_of 3 5 (Some (-5)))).
Proof.
  split; [reflexivity|]. eexists. split; [reflexivity|].
  split; [reflexivity | discriminate].
Qed.

Lemma processEventLog_unrecognized_witness :
  processEventLog log3 w0 = (Some (unrecognized_error log3), after_unrecognized log3 w0)
  /\ w_db (after_unrecognized log3 w0) = r0
  /\ w_db (after_unrecognized_logged log3 w0) = r0
  /\ (forall logs,
        for_logs (log3 :: logs) w0
        = for_logs logs (after_unrecognized_logged log3 w0))
  /\ (forall received,
        forever syncEventsLive_select (NewLog log3 :: received) w0
        = forever syncEventsLive_select received
            (after_unrecognized_logged log3 w0))
  /\ (forall c startBlock endBlock before after,
        FilterLogs (client c)
          {| FromBlock := Some startBlock; ToBlock := Some endBlock;
             Addresses := [contractAddr c] |}
        = inl (before ++ log3 :: after) ->
        (syncEventsHistory c startBlock endBlock w0).1 = None).
Proof.
  apply (processEventLog_unrecognized log3 w0).
  repeat split; discriminate.
Defined.


Lemma processEventLog_ResultPublished_witness :
  let e := {| rp_ProcessID := 1; rp_result := replicate 128 0 |} in
  processEventLog logResult w0 =
    (None,
     {| w_db := r0;
        w_log := [LogDebug ("Event: (blocknum: " +:+ fmt_d 8 +:+ ") "
                            +:+ @string_ResultPublished SpecDecoder e)];
        w_stdout := [] |}).
Proof.
  apply (@processEventLog_ResultPublished SQLite SQLiteStore SpecDecoder
           logResult {| rp_ProcessID := 1; rp_result := replicate 128 0 |} w0).
  - reflexivity.
  - vm_compute. reflexivity.
Defined.

Lemma processEventLog_ProcessClosed_witness :
  status_of 1 r0 = Some ProcessStatusFrozen
  /\ (processEventLog logClosed w0).1 = None
  /\ status_of 1 (w_db (processEventLog logClosed w0).2)
     = Some ProcessStatusContractClosed
  /\ (forall pid, pid <> 1 ->
        status_of pid (w_db (processEventLog logClosed w0).2)
        = status_of pid r0).
Proof.
  split; [reflexivity|].
  apply (processEventLog_ProcessClosed logClosed {| pc_ProcessID := 1 |} w0
           ProcessStatusFrozen).
  - reflexivity.
  - vm_compute. reflexivity.
  - reflexivity.
Defined.

End Concrete.

(** * Further properties *)

(** ** The vote package store: keys, invariants, batches *)

Section StoreFacts.
Context `{BabyJub}.
Import Go Types DB.

Lemma layout_fields_eq i1 (k1 : bytes) p1 i2 (k2 : bytes) p2 :
  length k1 = length k2 ->
  is_uint64 i1 -> is_uint64 p1 -> is_uint64 i2 -> is_uint64 p2 ->
  le64 i1 ++ k1 ++ le64 p1 = le64 i2 ++ k2 ++ le64 p2 ->
  i1 = i2 /\ k1 = k2 /\ p1 = p2.
Proof.
  intros Hlen Hi1 Hp1 Hi2 Hp2 Heq.
  apply app_inj_1 in Heq as [Hi Heq]; [|done].
  apply app_inj_1 in Heq as [Hk Hp]; [|done].
  auto using le64_inj.
Qed.

(** The id of the new row is taken exactly when a stored row has the same
    composite key. *)
Lemma id_taken_composite_key pid v r :
  store_ok r -> store_typed r ->
  is_uint64 pid -> is_uint64 (Index (CensusProof_ v)) ->
  id_taken (id (row_of pid v r)) r = true <->
  exists row, row ∈ votepackages r
              /\ composite_key row = composite_key (row_of pid v r).
Proof.
  intros Hok Hty Hpid Hidx. rewrite id_taken_true. unfold composite_key.
  split; intros (row & Hin & Heq); exists row; (split; [done|]).
  - destruct (Hok row Hin) as (Hid & Hlen & Hrange & _).
    rewrite Hid in Heq. simpl in Heq. rewrite vote_id_layout in Heq.
    apply layout_fields_eq in Heq as (-> & -> & ->);
      [done | by rewrite Compress_length | auto..].
  - destruct (Hok row Hin) as (Hid & _). rewrite Hid.
    injection Heq as -> -> ->. simpl. by rewrite vote_id_layout.
Qed.

(** X1.  The outcomes of [StoreVotePackage] on a table that satisfies its
    constraints, in the order in which they are decided.  A census index
    of 2^63 or more is refused when the arguments are converted, and so
    is, after it, a process identifier of 2^63 or more: the error names
    the ordinal of the argument, 2 or 8.  Otherwise, with a stored row of
    the same census index, compressed key and process identifier the call
    returns the driver's uniqueness error; otherwise, without the
    process, the error naming the process identifier; otherwise nil, and
    the table has one more row, the one built from the vote package.  A
    failing call leaves the store as it was. *)
Lemma StoreVotePackage_outcome pid v r :
  store_ok r -> store_typed r ->
  is_uint64 pid -> is_uint64 (Index (CensusProof_ v)) ->
  let stored := exists row, row ∈ votepackages r
                  /\ composite_key row = composite_key (row_of pid v r) in
  let converted := Index (CensusProof_ v) < 2 ^ 63 /\ pid < 2 ^ 63 in
  (2 ^ 63 <= Index (CensusProof_ v) ->
     StoreVotePackage pid v r = (Some (DriverError (high_bit_set 2)), r))
  /\ (Index (CensusProof_ v) < 2 ^ 63 -> 2 ^ 63 <= pid ->
        StoreVotePackage pid v r = (Some (DriverError (high_bit_set 8)), r))
  /\ (converted -> stored ->
        StoreVotePackage pid v r = (Some (DriverError unique_failed), r))
  /\ (converted -> ~ stored -> process_exists pid r = false ->
        StoreVotePackage pid v r =
          (Some (Errorf ("Can not store VotePackage, ProcessID="
                         +:+ fmt_d pid +:+ " does not exist")), r))
  /\ (converted -> ~ stored -> process_exists pid r = true ->
        StoreVotePackage pid v r =
          (None, set_votepackages (votepackages r ++ [row_of pid v r]) r)).
Proof.
  intros Hok Hty Hpid Hidx stored converted.
  pose proof (id_taken_composite_key pid v r Hok Hty Hpid Hidx) as Hiff.
  fold stored in Hiff.
  split; [apply StoreVotePackage_refused_index|].
  split; [apply StoreVotePackage_refused_processID|].
  split; [|split]; intros [Hi Hp];
    rewrite StoreVotePackage_converted by done; unfold exec_insert;
    change (processID (row_of pid v r)) with pid.
  - intros Hs. apply Hiff in Hs. by rewrite Hs.
  - intros Hs Hex.
    assert (Ht : id_taken (id (row_of pid v r)) r = false)
      by (apply not_true_is_false; intros Ht; by apply Hs, Hiff).
    by rewrite Ht, Hex.
  - intros Hs Hex.
    assert (Ht : id_taken (id (row_of pid v r)) r = false)
      by (apply not_true_is_false; intros Ht; by apply Hs, Hiff).
    by rewrite Ht, Hex.
Qed.

(** *** What a call keeps *)

Lemma StoreVotePackage_store_typed pid v r res r1 :
  is_uint64 (Index (CensusProof_ v)) -> store_typed r ->
  StoreVotePackage pid v r = (res, r1) -> store_typed r1.
Proof.
  intros Hidx Hty Hst. destruct res as [err|].
  - by apply StoreVotePackage_error_unchanged in Hst as ->.
  - apply StoreVotePackage_ok_inv in Hst as (_ & _ & ->).
    intros row Hin. simpl in Hin. apply elem_of_app in Hin as [Hin | Hin].
    + by apply Hty.
    + by apply list_elem_of_singleton in Hin as ->.
Qed.

Lemma StoreVotePackage_unique_ids pid v r res r1 :
  unique_ids r -> StoreVotePackage pid v r = (res, r1) -> unique_ids r1.
Proof.
  intros Hu Hst. destruct res as [err|].
  - by apply StoreVotePackage_error_unchanged in Hst as ->.
  - apply StoreVotePackage_ok_inv in Hst as (Hfree & _ & ->).
    unfold unique_ids in *. simpl. rewrite fmap_app. simpl.
    apply NoDup_app. split; [done|]. split; [|apply NoDup_singleton].
    intros i Hi Hnew. apply list_elem_of_singleton in Hnew as ->.
    apply list_elem_of_fmap in Hi as (row & Hid & Hin).
    assert (id_taken (id (row_of pid v r)) r = true) as Ht
      by (apply id_taken_true; eauto).
    congruence.
Qed.

Lemma StoreVotePackage_store_inv pid v r res r1 :
  uint64_call (pid, v) -> store_inv r ->
  StoreVotePackage pid v r = (res, r1) -> store_inv r1.
Proof.
  intros [Hpid Hidx] (Hok & Hty & Hu) Hst. split; [|split].
  - by apply (StoreVotePackage_store_ok _ _ _ _ _ Hpid Hok Hst).
  - by apply (StoreVotePackage_store_typed _ _ _ _ _ Hidx Hty Hst).
  - by apply (StoreVotePackage_unique_ids _ _ _ _ _ Hu Hst).
Qed.

Lemma store_each_store_inv calls r :
  Forall uint64_call calls -> store_inv r -> store_inv (store_each calls r).2.
Proof.
  intros Hty. revert r. induction Hty as [|[pid v] calls Hc _ IH]; intros r Hinv;
    simpl; [done|].
  destruct (StoreVotePackage pid v r) as [err r'] eqn:Hst.
  specialize (IH r' (StoreVotePackage_store_inv _ _ _ _ _ Hc Hinv Hst)).
  by destruct (store_each calls r').
Qed.

Lemma store_inv_empty ps n t :
  store_inv {| processes := ps; votepackages := []; lastSyncBlockNum := n;
               CURRENT_TIMESTAMP := t |}.
Proof.
  split; [|split]; try (intros row Hin; by apply elem_of_nil in Hin).
  apply NoDup_nil_2.
Qed.

(** Rows with distinct ids built from their columns have distinct keys. *)
Lemma store_inv_composite_keys r :
  store_inv r -> NoDup (composite_key <$> votepackages r).
Proof.
  intros (Hok & Hty & Hu). unfold unique_ids in Hu.
  assert (Hrows : forall row, row ∈ votepackages r ->
            id row = le64 (indx row) ++ publicKey row ++ le64 (processID row))
    by (intros row Hin; by destruct (Hok row Hin)).
  clear Hok Hty. induction (votepackages r) as [|row rows IH]; simpl in *.
  - apply NoDup_nil_2.
  - apply NoDup_cons in Hu as [Hnotin Hu]. apply NoDup_cons. split.
    + intros Hin. apply Hnotin.
      apply list_elem_of_fmap in Hin as (row' & Hkey & Hin').
      apply list_elem_of_fmap. exists row'. split; [|done].
      rewrite (Hrows row) by constructor.
      rewrite (Hrows row') by (by constructor).
      unfold composite_key in Hkey. by injection Hkey as -> -> ->.
    + apply IH; [done|]. intros row' Hin'. apply Hrows. by constructor.
Qed.

(** X2.  Whatever the calls of [StoreVotePackage] made on an empty table,
    no two stored rows have the same census index, compressed key and
    process identifier, and every stored row references a process that
    exists. *)
Lemma stored_keys_unique calls ps n t :
  Forall uint64_call calls ->
  let r := (store_each calls
              {| processes := ps; votepackages := [];
                 lastSyncBlockNum := n; CURRENT_TIMESTAMP := t |}).2 in
  NoDup (composite_key <$> votepackages r)
  /\ (forall row, row ∈ votepackages r -> process_exists (processID row) r = true).
Proof.
  intros Hty r.
  assert (Hinv : store_inv r)
    by (apply store_each_store_inv; [done | apply store_inv_empty]).
  split; [by apply store_inv_composite_keys|].
  intros row Hin. destruct Hinv as (Hok & _ & _).
  by destruct (Hok row Hin) as (_ & _ & _ & Hex).
Qed.

(** *** Calls in sequence *)

Lemma StoreVotePackage_frame pid v r res r1 :
  StoreVotePackage pid v r = (res, r1) ->
  processes r1 = processes r
  /\ lastSyncBlockNum r1 = lastSyncBlockNum r
  /\ CURRENT_TIMESTAMP r1 = CURRENT_TIMESTAMP r
  /\ votepackages r1
     = votepackages r ++ match res with
                         | Some _ => []
                         | None => [row_of pid v r]
                         end.
Proof.
  intros Hst. destruct res as [err|].
  - apply StoreVotePackage_error_unchanged in Hst as ->.
    by rewrite app_nil_r.
  - by apply StoreVotePackage_ok_inv in Hst as (_ & _ & ->).
Qed.

(** X3.  [StoreVotePackage] only appends: after any calls the rows that
    were there are a prefix of the table, the table has grown by the number
    of calls that returned nil, and neither the process table nor the
    checkpoint has changed. *)
Lemma store_each_append_only calls r :
  let res := store_each calls r in
  votepackages r `prefix_of` votepackages res.2
  /\ length res.1 = length calls
  /\ length (votepackages res.2)
     = (length (votepackages r) + succeeded res.1)%nat
  /\ processes res.2 = processes r
  /\ lastSyncBlockNum res.2 = lastSyncBlockNum r.
Proof.
  revert r. induction calls as [|[pid v] calls IH]; intros r; simpl.
  - repeat split; [done | unfold succeeded; simpl; lia].
  - destruct (StoreVotePackage pid v r) as [err r'] eqn:Hst.
    apply StoreVotePackage_frame in Hst as (Hp & Hc & _ & Hv).
    specialize (IH r'). destruct (store_each calls r') as [errs r''].
    cbn [fst snd] in *. destruct IH as (Hpre & Hlen & Hrows & Hp' & Hc').
    split; [|split; [|split; [|split]]]; try congruence.
    + etrans; [|exact Hpre]. rewrite Hv. by apply prefix_app_r.
    + simpl. by rewrite Hlen.
    + rewrite Hrows, Hv, length_app. unfold succeeded.
      destruct err as [e|].
      * rewrite filter_cons_False by done. simpl. lia.
      * rewrite filter_cons_True by done. simpl. lia.
Qed.

(** *** The whole vote package, read back *)

Lemma copy_make_length n (src : bytes) : length (copy (make n) src) = n.
Proof.
  unfold copy, make. rewrite length_app, length_take, length_drop, !length_replicate.
  lia.
Qed.

Lemma copy_make_full n (src : bytes) : length src = n -> copy (make n) src = src.
Proof.
  intros Hlen. unfold copy, make. rewrite length_replicate.
  rewrite take_ge by lia. rewrite drop_ge by (rewrite length_replicate; lia).
  apply app_nil_r.
Qed.




(** X4.  A vote package stored with success, as long as its row is there:
    every read of its process that returns no error returns it, with the
    signature in 64 bytes, the key its compressed key decompresses to and
    the magnitude of its weight; a vote package with a 64-byte signature,
    a weight absent or non-negative and a key that is its own
    decompression comes back field for field, the absent weight as 0.
    When its compressed key does not decompress, every read of its
    process returns an error and no vote package. *)
Lemma StoreVotePackage_read_back pid v r r1 r2 :
  StoreVotePackage pid v r = (None, r1) ->
  votepackages r1 ⊆ votepackages r2 ->
  (forall votes,
     ReadVotePackagesByProcessID pid r2 = (votes, None) ->
     exists v',
       v' ∈ votes /\ returned_for v v'
       /\ length (Signature v') = 64%nat
       /\ (length (Signature v) = 64%nat -> weight_in_domain v ->
           Decompress (Compress (PublicKey (CensusProof_ v)))
           = inl (PublicKey (CensusProof_ v)) ->
           v' = {| Signature := Signature v;
                   CensusProof_ :=
                     {| Index := Index (CensusProof_ v);
                        PublicKey := PublicKey (CensusProof_ v);
                        Weight := Some (default 0 (Weight (CensusProof_ v)));
                        MerkleProof := MerkleProof (CensusProof_ v) |};
                   Vote := Vote v |}))
  /\ (forall e,
        Decompress (Compress (PublicKey (CensusProof_ v))) = inr e ->
        exists err, ReadVotePackagesByProcessID pid r2 = ([], Some err)).
Proof.
  intros Hst Hsub. split.
  - intros votes Hread.
    destruct (stored_then_returned _ _ _ _ _ _ Hst Hsub Hread)
      as (v' & Hin & Hret).
    exists v'. split; [done|]. split; [done|].
    destruct Hret as (Hs & Hi & Hd & Hw & Hm & Hv). split.
    + rewrite Hs. apply copy_make_length.
    + intros Hsig Hdom Hkey. destruct v' as [sig [index key w proof] vt].
      simpl in *. subst. rewrite copy_make_full by done.
      rewrite Hkey in Hd. injection Hd as <-. do 3 f_equal.
      unfold weight_in_domain in Hdom.
      destruct (Weight (CensusProof_ v)); simpl; lia.
  - intros e He.
    destruct (StoreVotePackage_ok_convertible _ _ _ _ Hst) as [_ Hp].
    apply StoreVotePackage_ok_inv in Hst as (_ & _ & ->).
    unfold ReadVotePackagesByProcessID.
    rewrite (proj2 (convert_uint64_None 1 _) Hp).
    apply scan_rows_fails with (row_of pid v r) e; [|done].
    apply query_votepackages_elem. split; [done|].
    apply Hsub. simpl. apply elem_of_app. right. constructor.
Qed.

(** X5.  The weight is stored through [Bytes], which keeps the magnitude:
    a vote package stored with weight [w] is, in every read of its process
    that returns no error, read back with weight [|w|], so a negative
    weight loses its sign. *)
Lemma StoreVotePackage_weight_magnitude pid v w r r1 votes :
  Weight (CensusProof_ v) = Some w ->
  StoreVotePackage pid v r = (None, r1) ->
  ReadVotePackagesByProcessID pid r1 = (votes, None) ->
  exists v', v' ∈ votes
             /\ Index (CensusProof_ v') = Index (CensusProof_ v)
             /\ Decompress (Compress (PublicKey (CensusProof_ v)))
                = inl (PublicKey (CensusProof_ v'))
             /\ Weight (CensusProof_ v') = Some (Z.abs w)
             /\ (w < 0 -> Weight (CensusProof_ v') = Some (- w)).
Proof.
  intros Hw Hst Hread.
  destruct (stored_then_returned pid v r r1 r1 votes Hst) as (v' & Hin & Hret);
    [done | done |].
  destruct Hret as (_ & Hi & Hd & Hw' & _).
  exists v'. rewrite Hw in Hw'. simpl in Hw'.
  do 4 (split; [done|]). intros Hneg. rewrite Hw'. f_equal. lia.
Qed.

(** *** Processes do not see each other's vote packages *)

Lemma StoreVotePackage_other_process pid pid' v r :
  pid' <> pid ->
  ReadVotePackagesByProcessID pid' (StoreVotePackage pid v r).2
  = ReadVotePackagesByProcessID pid' r.
Proof.
  intros Hne. destruct (StoreVotePackage pid v r) as [res r1] eqn:Hst.
  apply StoreVotePackage_frame in Hst as (_ & _ & _ & Hv).
  unfold ReadVotePackagesByProcessID, query_votepackages.
  cbn [snd]. rewrite Hv, filter_app.
  destruct res; simpl; [by rewrite app_nil_r|].
  rewrite filter_cons_False by (simpl; congruence).
  by rewrite filter_nil, app_nil_r.
Qed.

(** X6.  Calls of [StoreVotePackage] for other processes, failing or not,
    do not change what [ReadVotePackagesByProcessID] returns for a
    process. *)
Lemma store_each_other_process pid' calls r :
  Forall (fun c => c.1 <> pid') calls ->
  ReadVotePackagesByProcessID pid' (store_each calls r).2
  = ReadVotePackagesByProcessID pid' r.
Proof.
  intros Hne. revert r. induction Hne as [|[pid v] calls Hc _ IH]; intros r;
    simpl; [done|].
  pose proof (StoreVotePackage_other_process pid pid' v r) as Hstep.
  destruct (StoreVotePackage pid v r) as [err r'].
  specialize (IH r'). destruct (store_each calls r') as [errs r''].
  simpl in *. rewrite IH. apply Hstep. by intros ->.
Qed.

Lemma filter_processID_nil pid (rows : list VotePackageRow) :
  (forall row, row ∈ rows -> processID row <> pid) ->
  filter (fun row => processID row = pid) rows = [].
Proof.
  induction rows as [|row rows IH]; intros Hno; [done|].
  rewrite filter_cons_False by (apply Hno; constructor).
  apply IH. intros row' Hin. apply Hno. by constructor.
Qed.

(** X7.  What [ReadVotePackagesByProcessID] returns without rows.  A
    process identifier of 2^63 or more is refused when the argument of
    the query is converted.  Below 2^63 the read returns no vote package
    and no error exactly when no stored row has the process identifier, a
    process that does not exist included; and a stored row of the
    process whose key does not decompress makes it return an error. *)
Lemma ReadVotePackagesByProcessID_none pid r :
  (2 ^ 63 <= pid ->
   ReadVotePackagesByProcessID pid r = ([], Some (DriverError (high_bit_set 1))))
  /\ (pid < 2 ^ 63 ->
      (ReadVotePackagesByProcessID pid r = ([], None) <->
       forall row, row ∈ votepackages r -> processID row <> pid))
  /\ (pid < 2 ^ 63 ->
      forall row e, row ∈ votepackages r -> processID row = pid ->
        Decompress (publicKey row) = inr e ->
        ReadVotePackagesByProcessID pid r
        <> ([], None)
        /\ exists err, ReadVotePackagesByProcessID pid r = ([], Some err)).
Proof.
  split; [|split].
  - intros Hp. unfold ReadVotePackagesByProcessID. by rewrite convert_uint64_Some.
  - intros Hp. split.
    + intros Hread row Hin Hpid.
      apply ReadVotePackagesByProcessID_None in Hread as [_ Hret].
      apply Forall2_nil_inv_r in Hret.
      assert (Hrow : row ∈ query_votepackages pid r)
        by (by apply query_votepackages_elem).
      rewrite Hret in Hrow. by apply elem_of_nil in Hrow.
    + intros Hno. unfold ReadVotePackagesByProcessID, query_votepackages.
      rewrite (proj2 (convert_uint64_None 1 _) Hp).
      by rewrite filter_processID_nil.
  - intros Hp row e Hin Hpid He.
    assert (Hfail : exists err, ReadVotePackagesByProcessID pid r = ([], Some err)).
    { unfold ReadVotePackagesByProcessID.
      rewrite (proj2 (convert_uint64_None 1 _) Hp).
      apply scan_rows_fails with row e; [|done].
      by apply query_votepackages_elem. }
    split; [|done]. destruct Hfail as [err ->]. discriminate.
Qed.

(** *** Distinct indices for one process *)

Lemma set_votepackages_twice rows rows' r :
  set_votepackages rows (set_votepackages rows' r) = set_votepackages rows r.
Proof. reflexivity. Qed.



End StoreFacts.

(** ** The record id, decoded *)

Section IdFields.
Import Go Types DB.

Lemma byte_term_testbit v k n :
  0 <= k -> 0 <= n ->
  Z.testbit (Z.shiftl (to_byte (Z.shiftr v k)) k) n
  = (k <=? n) && (n <? k + 8) && Z.testbit v n.
Proof.
  intros Hk Hn. rewrite Z.shiftl_spec by done.
  destruct (Z.leb_spec k n) as [Hle|Hlt]; simpl.
  - unfold to_byte. rewrite Z.land_spec, Z.shiftr_spec by lia.
    replace (n - k + k) with n by lia. change 255 with (Z.ones 8).
    destruct (Z.ltb_spec n (k + 8)) as [Hin|Hout]; simpl.
    + rewrite Z.ones_spec_low by lia. apply andb_true_r.
    + rewrite Z.ones_spec_high by lia. apply andb_false_r.
  - apply Z.testbit_neg_r. lia.
Qed.

Lemma Uint64_le64 v : is_uint64 v -> Uint64 (le64 v) = v.
Proof.
  intros Hv. unfold Uint64, le64. cbn [nth].
  rewrite <- (Z.shiftl_0_r (to_byte v)). rewrite <- (Z.shiftr_0_r v) at 1.
  apply Z.bits_inj'. intros n Hn.
  rewrite !Z.lor_spec, !byte_term_testbit by lia.
  destruct (Z.testbit v n) eqn:Hbit; [|by rewrite !andb_false_r].
  assert (n < 64).
  { destruct (Z_lt_le_dec n 64) as [|Hge]; [done|].
    rewrite (uint64_high_bits v n Hv Hge) in Hbit. discriminate. }
  rewrite !andb_true_r.
  repeat match goal with
         | |- context [?a <=? ?b] =>
             destruct (Z.leb_spec a b); simpl; try lia
         | |- context [?a <? ?b] =>
             destruct (Z.ltb_spec a b); simpl; try lia
         end; reflexivity.
Qed.

Section WithKeys.
Context `{BabyJub}.

(** X9.  The record id has 48 bytes; its first eight decode
    (little-endian) to the census index, the next 32 are the compressed
    key, and the last eight decode to the process identifier. *)
Lemma vote_id_fields index pk pid :
  is_uint64 index -> is_uint64 pid ->
  length (vote_id index pk pid) = 48%nat
  /\ Uint64 (take 8 (vote_id index pk pid)) = index
  /\ take 32 (drop 8 (vote_id index pk pid)) = Compress pk
  /\ Uint64 (drop 40 (vote_id index pk pid)) = pid.
Proof.
  intros Hi Hp. rewrite vote_id_layout.
  assert (Hlen : length (le64 index) = 8%nat) by done.
  split; [|split; [|split]].
  - by rewrite !length_app, Compress_length.
  - rewrite take_app_length' by done. by apply Uint64_le64.
  - rewrite drop_app_length' by done.
    apply take_app_length'. by rewrite Compress_length.
  - rewrite app_assoc, drop_app_length'
      by (rewrite length_app, Compress_length; done).
    by apply Uint64_le64.
Qed.

End WithKeys.
End IdFields.

(** ** The engine over any store: failures, batches, what is called *)

Section EngineMore.
Import Go Types Eth.
Context {D : Type} {store : ProcessStore D} {decoder : EventDecoder}.

(** *** Parse failures *)

(** X10.  When the parser of a payload of recognized length fails,
    [processEventLog] returns an error carrying the block number, the
    event kind, the payload in hexadecimal and the parser's error, and
    changes nothing: no store method is called and nothing is logged; the
    loop around it logs that error once. *)
Lemma processEventLog_parse_failure eventLog kind err (w : World D) :
  parse_failure eventLog = Some (kind, err) ->
  processEventLog eventLog w =
    (Some (Errorf ("blocknum: " +:+ fmt_d (BlockNumber eventLog)
                   +:+ ", error parsing event log (" +:+ kind +:+ "): "
                   +:+ fmt_x (Data eventLog) +:+ ", err: " +:+ Error err)), w)
  /\ process_and_log eventLog w =
       (tt, add_log (LogError
              (Errorf ("blocknum: " +:+ fmt_d (BlockNumber eventLog)
                       +:+ ", error parsing event log (" +:+ kind +:+ "): "
                       +:+ fmt_x (Data eventLog) +:+ ", err: " +:+ Error err))) w).
Proof.
  unfold parse_failure, process_and_log, bind, processEventLog. intros Hf.
  destruct (len (Data eventLog) =? eventNewProcessLen).
  { destruct (parseEventNewProcess _); [discriminate|].
    injection Hf as <- <-. split; reflexivity. }
  destruct (len (Data eventLog) =? eventResultPublishedLen).
  { destruct (parseEventResultPublished _); [discriminate|].
    injection Hf as <- <-. split; reflexivity. }
  destruct (len (Data eventLog) =? eventProcessClosedLen); [|discriminate].
  destruct (parseEventProcessClosed _); [discriminate|].
  injection Hf as <- <-. split; reflexivity.
Qed.

(** *** The database under [processEventLog] *)

Lemma processEventLog_db eventLog (w : World D) :
  w_db (processEventLog eventLog w).2 = apply_event eventLog (w_db w).
Proof.
  unfold apply_event, processEventLog.
  repeat match goal with
         | |- context [if ?b then _ else _] => destruct b
         | |- context [match ?x with inl _ => _ | inr _ => _ end] => destruct x
         end; try reflexivity;
    unfold bind, call_db, log_Debugf, ret; simpl.
  - by destruct (db_StoreProcess _ _ _ _ _ _ _ _ _) as [[?|] ?].
  - by destruct (db_UpdateProcessStatus _ _ _) as [[?|] ?].
Qed.

Lemma process_and_log_db eventLog (w : World D) :
  w_db (process_and_log eventLog w).2 = apply_event eventLog (w_db w).
Proof.
  unfold process_and_log, bind. rewrite <- processEventLog_db.
  by destruct (processEventLog eventLog w) as [[err|] w'].
Qed.

Lemma for_logs_db logs (w : World D) :
  w_db (for_logs logs w).2
  = fold_left (fun d eventLog => apply_event eventLog d) logs (w_db w).
Proof.
  revert w. induction logs as [|eventLog logs IH]; intros w; simpl; [done|].
  unfold bind. rewrite <- process_and_log_db.
  destruct (process_and_log eventLog w) as [[] w']. apply IH.
Qed.

Lemma forever_live_db received (w : World D) :
  w_db (forever syncEventsLive_select received w).2
  = fold_left (fun d eventLog => apply_event eventLog d) (logs_of received) (w_db w).
Proof.
  revert w. induction received as [|[err|vLog] received IH]; intros w; simpl;
    [done| |]; unfold bind.
  - unfold log_Error. rewrite IH. reflexivity.
  - rewrite <- process_and_log_db.
    destruct (process_and_log vLog w) as [[] w']. apply IH.
Qed.

(** X11.  Events have the same effect on the database whether they arrive
    through the live subscription or through a backfill query that
    returns the same logs in the same order; errors of the subscription
    in between change nothing.  The live loop stays in its loop, the
    backfill returns nil. *)
Lemma live_and_backfill_agree c received startBlock endBlock (w w' : World D) :
  SubscribeFilterLogs (client c)
    {| FromBlock := None; ToBlock := None; Addresses := [contractAddr c] |} = None ->
  FilterLogs (client c) (history_query c startBlock endBlock)
    = inl (logs_of received) ->
  w_db w = w_db w' ->
  (syncEventsLive c received w).1 = InLoop
  /\ (syncEventsHistory c startBlock endBlock w').1 = None
  /\ w_db (syncEventsLive c received w).2
     = w_db (syncEventsHistory c startBlock endBlock w').2.
Proof.
  intros Hsub Hq Hdb. unfold syncEventsLive, syncEventsHistory.
  unfold history_query in Hq. rewrite Hsub, Hq. unfold bind, ret.
  pose proof (forever_live_db received w) as Hl.
  pose proof (for_logs_db (logs_of received) w') as Hb.
  destruct (forever syncEventsLive_select received w) as [[] wl].
  destruct (for_logs (logs_of received) w') as [[] wb].
  simpl in *. repeat split. by rewrite Hl, Hb, Hdb.
Qed.

(** *** Batches *)

Lemma for_logs_app logs1 logs2 (w : World D) :
  for_logs (logs1 ++ logs2) w = for_logs logs2 (for_logs logs1 w).2.
Proof.
  revert w. induction logs1 as [|eventLog logs1 IH]; intros w; simpl; [done|].
  unfold bind. destruct (process_and_log eventLog w) as [[] w']. apply IH.
Qed.

(** X12.  A backfill whose query returns the logs of two queries, one
    after the other, is the same as the two backfills in sequence. *)
Lemma syncEventsHistory_split c s1 e1 s2 e2 s e logs1 logs2 (w : World D) :
  FilterLogs (client c) (history_query c s1 e1) = inl logs1 ->
  FilterLogs (client c) (history_query c s2 e2) = inl logs2 ->
  FilterLogs (client c) (history_query c s e) = inl (logs1 ++ logs2) ->
  syncEventsHistory c s e w
  = syncEventsHistory c s2 e2 (syncEventsHistory c s1 e1 w).2.
Proof.
  intros H1 H2 H12. unfold syncEventsHistory, history_query in *.
  rewrite H1, H2, H12. unfold bind, ret. rewrite for_logs_app.
  destruct (for_logs logs1 w) as [[] w1]. reflexivity.
Qed.


(** *** [syncHistory] *)

(** X13.  When the current header cannot be fetched, or the log query
    fails, [syncHistory] returns that error without touching the database
    (the freeze sweep is not run); the error is logged once in the first
    case and twice in the second. *)
Lemma syncHistory_stops_before_freeze c startBlock err n (w : World D) :
  history_failure c startBlock = Some (err, n) ->
  (syncHistory c startBlock w).1 = Some err
  /\ w_db (syncHistory c startBlock w).2 = w_db w
  /\ error_lines (new_lines w (syncHistory c startBlock w).2) = replicate n err.
Proof.
  unfold history_failure, syncHistory, new_lines. intros Hf.
  destruct (HeaderByNumber (client c)) as [curr|e].
  - unfold bind at 1. unfold log_Debugf at 1. unfold bind at 1.
    unfold syncEventsHistory. unfold history_query in Hf.
    destruct (FilterLogs _ _) as [logs|e]; [discriminate|].
    injection Hf as <- <-. simpl. repeat split.
    rewrite <- !app_assoc, drop_app_length. reflexivity.
  - injection Hf as <- <-. simpl. repeat split.
    by rewrite drop_app_length.
Qed.

(** X14.  When the header and the logs are obtained, [syncHistory] applies
    the logs in order and then runs the freeze sweep for the current block
    number on the result; it returns what the sweep returns, whatever
    errors the single events gave.  The query starts at the given block,
    converted to [int64]. *)
Lemma syncHistory_backfill_then_freeze c startBlock curr logs (w : World D) :
  HeaderByNumber (client c) = inl curr ->
  FilterLogs (client c) (history_query c (int64_of_uint64 startBlock) curr)
    = inl logs ->
  let backfilled :=
    fold_left (fun d eventLog => apply_event eventLog d) logs (w_db w) in
  let sweep :=
    db_FrozeProcessesByCurrentBlockNum (big_Uint64 curr) backfilled in
  (syncHistory c startBlock w).1 = sweep.1
  /\ w_db (syncHistory c startBlock w).2 = sweep.2.
Proof.
  intros Hh Hq backfilled sweep. unfold syncHistory. rewrite Hh.
  unfold syncEventsHistory. unfold history_query in Hq. rewrite Hq.
  unfold bind, ret, call_db, log_Debugf.
  match goal with |- context [for_logs logs ?w0] =>
    pose proof (for_logs_db logs w0) as Hdb;
    destruct (for_logs logs w0) as [[] w1] end.
  simpl in Hdb. subst sweep backfilled. rewrite <- Hdb.
  by destruct (db_FrozeProcessesByCurrentBlockNum _ _) as [[e|] d].
Qed.

(** *** [syncBlocksLive] *)

Lemma forever_headers_db received (w : World D) :
  w_db (forever syncBlocksLive_select received w).2
  = fold_left (fun d number => (db_UpdateLastSyncBlockNum number d).2)
      (numbers_of received) (w_db w).
Proof.
  revert w. induction received as [|[err|number] received IH]; intros w; simpl;
    [done| |]; unfold bind.
  - unfold log_Error. rewrite IH. reflexivity.
  - unfold log_Debugf, call_db. simpl.
    destruct (db_UpdateLastSyncBlockNum _ _) as [[e|] d]; simpl;
      rewrite IH; reflexivity.
Qed.

(** X15.  [syncBlocksLive] returns only when the subscription fails, with
    that error, logged, and the database untouched.  Once subscribed it
    stays in its loop, and the database it leaves is the one obtained by
    calling [UpdateLastSyncBlockNum] once per header received, in order;
    errors of the subscription are skipped. *)
Lemma syncBlocksLive_outcome c received (w : World D) :
  match SubscribeNewHead (client c) with
  | Some err =>
      syncBlocksLive c received w = (Returned err, add_log (LogError err) w)
  | None =>
      (syncBlocksLive c received w).1 = InLoop
      /\ w_db (syncBlocksLive c received w).2
         = fold_left (fun d number => (db_UpdateLastSyncBlockNum number d).2)
             (numbers_of received) (w_db w)
  end.
Proof.
  unfold syncBlocksLive. destruct (SubscribeNewHead _); [reflexivity|].
  unfold bind, ret. rewrite <- forever_headers_db.
  by destruct (forever syncBlocksLive_select received w).
Qed.

(** *** Errors are logged, once each *)

Lemma processEventLog_lines eventLog (w : World D) :
  exists lines,
    w_log (processEventLog eventLog w).2 = w_log w ++ lines
    /\ error_lines lines = []
    /\ w_stdout w `prefix_of` w_stdout (processEventLog eventLog w).2.
Proof.
  unfold processEventLog.
  repeat match goal with
         | |- context [if ?b then _ else _] => destruct b
         | |- context [match ?x with inl _ => _ | inr _ => _ end] => destruct x
         end;
    unfold bind, call_db, log_Debugf, fmt_Printf, ret; simpl;
    try match goal with
        | |- context [db_StoreProcess ?a ?b ?c ?d ?e ?f ?g ?h ?i] =>
            destruct (db_StoreProcess a b c d e f g h i) as [[?|] ?]
        | |- context [db_UpdateProcessStatus ?a ?b ?c] =>
            destruct (db_UpdateProcessStatus a b c) as [[?|] ?]
        end; simpl;
    first [ by (exists []; rewrite app_nil_r; repeat split; try done;
                apply prefix_app_r)
          | by (eexists [_]; repeat split; done) ].
Qed.

Lemma for_logs_lines logs (w : World D) :
  exists lines,
    w_log (for_logs logs w).2 = w_log w ++ lines
    /\ error_lines lines = returned_errors logs w.
Proof.
  revert w. induction logs as [|eventLog logs IH]; intros w; simpl.
  - exists []. by rewrite app_nil_r.
  - unfold bind at 1. destruct (IH (process_and_log eventLog w).2) as (rest & Hrest & Herr).
    destruct (processEventLog_lines eventLog w) as (lines & Hlines & Hnone & _).
    revert Hrest Herr. unfold process_and_log at 1 2 4, bind.
    destruct (processEventLog eventLog w) as [[err|] w1]; simpl in *; intros Hrest Herr.
    + exists (lines ++ [LogError err] ++ rest). split.
      * rewrite Hrest, Hlines. by rewrite <- !app_assoc.
      * rewrite <- Herr. clear -Hnone.
        induction lines as [|[e|m] lines IHl]; simpl in *; [done|discriminate|auto].
    + exists (lines ++ rest). split.
      * rewrite Hrest, Hlines. by rewrite <- !app_assoc.
      * rewrite <- Herr. clear -Hnone.
        induction lines as [|[e|m] lines IHl]; simpl in *; [done|discriminate|auto].
Qed.

(** X17.  A backfill whose query succeeds returns nil, keeps the log lines
    that were there, and the error lines it adds are exactly the errors
    [processEventLog] returned for its logs, each once and in order. *)
Lemma syncEventsHistory_logs_every_error c startBlock endBlock logs (w : World D) :
  FilterLogs (client c) (history_query c startBlock endBlock) = inl logs ->
  (syncEventsHistory c startBlock endBlock w).1 = None
  /\ w_log w `prefix_of` w_log (syncEventsHistory c startBlock endBlock w).2
  /\ error_lines (new_lines w (syncEventsHistory c startBlock endBlock w).2)
     = returned_errors logs w.
Proof.
  intros Hq. unfold syncEventsHistory, new_lines. unfold history_query in Hq.
  rewrite Hq. unfold bind, ret.
  destruct (for_logs_lines logs w) as (lines & Hlines & Herr).
  destruct (for_logs logs w) as [[] w1]. simpl in *. rewrite Hlines.
  repeat split; [by apply prefix_app_r|]. by rewrite drop_app_length.
Qed.


(** *** What the event paths call *)

(** X18.  The paths that handle log events use the store through
    [StoreProcess] and [UpdateProcessStatus] only: over two stores that
    agree on these two methods, [processEventLog], [syncEventsHistory] and
    [syncEventsLive] are the same. *)
Lemma event_paths_use_two_methods (S S' : ProcessStore D) :
  (forall pid root size blk start window minp typ d,
     @db_StoreProcess D S pid root size blk start window minp typ d
     = @db_StoreProcess D S' pid root size blk start window minp typ d) ->
  (forall pid status d,
     @db_UpdateProcessStatus D S pid status d
     = @db_UpdateProcessStatus D S' pid status d) ->
  (forall eventLog w,
     @processEventLog D S decoder eventLog w
     = @processEventLog D S' decoder eventLog w)
  /\ (forall c startBlock endBlock w,
        @syncEventsHistory D S decoder c startBlock endBlock w
        = @syncEventsHistory D S' decoder c startBlock endBlock w)
  /\ (forall c received w,
        @syncEventsLive D S decoder c received w
        = @syncEventsLive D S' decoder c received w).
Proof.
  intros Hsp Hup.
  assert (Hev : forall eventLog w,
            @processEventLog D S decoder eventLog w
            = @processEventLog D S' decoder eventLog w).
  { intros eventLog w. unfold processEventLog.
    repeat match goal with
           | |- context [if ?b then _ else _] => destruct b
           | |- context [match ?x with inl _ => _ | inr _ => _ end] => destruct x
           end; try reflexivity; unfold bind, call_db, log_Debugf; simpl.
    - by rewrite Hsp.
    - by rewrite Hup. }
  assert (Hpl : forall eventLog w,
            @process_and_log D S decoder eventLog w
            = @process_and_log D S' decoder eventLog w).
  { intros eventLog w. unfold process_and_log, bind. by rewrite Hev. }
  split; [exact Hev|]. split.
  - intros c startBlock endBlock w. unfold syncEventsHistory.
    destruct (FilterLogs _ _) as [logs|err]; [|reflexivity].
    unfold bind. replace (@for_logs D S decoder logs w)
      with (@for_logs D S' decoder logs w); [done|].
    revert w. induction logs as [|eventLog logs IH]; intros w; simpl; [done|].
    unfold bind. rewrite Hpl.
    destruct (process_and_log eventLog w) as [[] w']. apply IH.
  - intros c received w. unfold syncEventsLive.
    destruct (SubscribeFilterLogs _ _); [reflexivity|].
    unfold bind.
    replace (forever (@syncEventsLive_select D S decoder) received w)
      with (forever (@syncEventsLive_select D S' decoder) received w); [done|].
    revert w. induction received as [|[err|vLog] received IH]; intros w; simpl;
      [done| |]; unfold bind.
    + destruct (log_Error err w) as [[] w']. apply IH.
    + rewrite Hpl. destruct (process_and_log vLog w) as [[] w']. apply IH.
Qed.

End EngineMore.

(** ** The engine over the SQLite store: headers and replayed events *)

Section EngineOnSQLiteMore.
Import Go Types DB Eth.
Context {decoder : EventDecoder}.

Lemma fold_UpdateLastSyncBlockNum numbers r :
  let r' := fold_left (fun d number => (UpdateLastSyncBlockNum number d).2)
              numbers r in
  lastSyncBlockNum r' = default (lastSyncBlockNum r) (last numbers)
  /\ processes r' = processes r
  /\ votepackages r' = votepackages r.
Proof.
  revert r. induction numbers as [|number numbers IH]; intros r; [done|].
  cbn [fold_left].
  destruct (IH (UpdateLastSyncBlockNum number r).2) as (Hc & Hp & Hv).
  rewrite Hc, Hp, Hv. split; [|by split].
  rewrite last_cons. by destruct (last numbers).
Qed.

(** X16.  Over the SQLite store, [syncBlocksLive] leaves as checkpoint the
    number of the last header received (the stored one if none came), and
    changes neither the process table nor the vote packages. *)
Lemma syncBlocksLive_checkpoint c received (w : World SQLite) :
  SubscribeNewHead (client c) = None ->
  let r' := w_db (syncBlocksLive c received w).2 in
  (syncBlocksLive c received w).1 = InLoop
  /\ lastSyncBlockNum r'
     = default (lastSyncBlockNum (w_db w)) (last (numbers_of received))
  /\ processes r' = processes (w_db w)
  /\ votepackages r' = votepackages (w_db w).
Proof.
  intros Hsub r'. subst r'. unfold syncBlocksLive. rewrite Hsub.
  unfold bind, ret.
  pose proof (forever_headers_db (store := SQLiteStore) received w) as Hdb.
  destruct (forever syncBlocksLive_select received w) as [[] w1].
  cbn [fst snd] in *. split; [done|]. rewrite Hdb.
  apply (fold_UpdateLastSyncBlockNum (numbers_of received) (w_db w)).
Qed.

(** *** A NewProcess event met twice *)

Lemma lookup_status_app_new pid ps p :
  existsb (fun q => p_id q =? pid) ps = false -> p_id p = pid ->
  lookup_status pid (ps ++ [p]) = Some (p_status p).
Proof.
  intros Hno Hp. induction ps as [|q ps IH]; simpl in *.
  - by rewrite Hp, Z.eqb_refl.
  - apply orb_false_iff in Hno as [Hq Hno]. rewrite Hq. by apply IH.
Qed.

(** X19.  Over the SQLite store, a decoded NewProcess event for an unknown
    process is applied with success: the process exists afterwards, with
    status [ProcessStatusOn], and the vote packages are untouched.  The
    same event met again returns the error "error storing new process",
    carrying the payload and the store's error, and leaves the database as
    it was. *)
Lemma processEventLog_NewProcess_twice eventLog e (w : World SQLite) :
  len (Data eventLog) = eventNewProcessLen ->
  parseEventNewProcess (Data eventLog) = inl e ->
  process_exists (np_ProcessID e) (w_db w) = false ->
  let first := processEventLog eventLog w in
  let second := processEventLog eventLog first.2 in
  first.1 = None
  /\ status_of (np_ProcessID e) (w_db first.2) = Some ProcessStatusOn
  /\ votepackages (w_db first.2) = votepackages (w_db w)
  /\ second.1 = Some (Errorf ("error storing new process: "
                              +:+ fmt_x (Data eventLog) +:+ ", err: "
                              +:+ "UNIQUE constraint failed: processes.id"))
  /\ w_db second.2 = w_db first.2.
Proof.
  intros Hlen He Hno first second.
  assert (Hfirst : first =
    (None,
     {| w_db := set_processes
                  (processes (w_db w) ++
                   [{| p_id := np_ProcessID e; p_censusRoot := np_CensusRoot e;
                       p_censusSize := np_CensusSize e;
                       p_ethBlockNum := BlockNumber eventLog;
                       p_resPubStartBlock := np_ResPubStartBlock e;
                       p_resPubWindow := np_ResPubWindow e;
                       p_minParticipation := np_MinParticipation e;
                       p_type := np_Type e; p_status := ProcessStatusOn |}])
                  (w_db w);
        w_log := w_log w ++
          [LogDebug ("Event: (blocknum: " +:+ fmt_d (BlockNumber eventLog)
                     +:+ ") " +:+ string_NewProcess e)];
        w_stdout := w_stdout w |})).
  { subst first. unfold processEventLog. rewrite Hlen, He. simpl.
    unfold bind, log_Debugf, call_db, ret. simpl.
    unfold StoreProcess. by rewrite Hno. }
  subst second. rewrite Hfirst. simpl. split; [done|]. split.
  - unfold status_of. simpl. by apply lookup_status_app_new.
  - split; [done|]. unfold processEventLog. rewrite Hlen, He. simpl.
    unfold bind, log_Debugf, call_db, ret. simpl. unfold StoreProcess.
    assert (Hex : process_exists (np_ProcessID e)
              (set_processes
                 (processes (w_db w) ++
                  [{| p_id := np_ProcessID e; p_censusRoot := np_CensusRoot e;
                      p_censusSize := np_CensusSize e;
                      p_ethBlockNum := BlockNumber eventLog;
                      p_resPubStartBlock := np_ResPubStartBlock e;
                      p_resPubWindow := np_ResPubWindow e;
                      p_minParticipation := np_MinParticipation e;
                      p_type := np_Type e; p_status := ProcessStatusOn |}])
                 (w_db w)) = true).
    { unfold process_exists. simpl. rewrite existsb_app. simpl.
      rewrite Z.eqb_refl. by rewrite orb_true_r. }
    rewrite Hex. by split.
Qed.

End EngineOnSQLiteMore.

(** ** The further properties at concrete inputs *)

Section ConcreteMore.
Import Go Types DB Eth Examples MoreExamples.

Lemma r1_store_inv : store_inv r1.
Proof.
  apply (StoreVotePackage_store_inv 1 (vote_of 3 5 None) r0
           (StoreVotePackage 1 (vote_of 3 5 None) r0).1 r1).
  - split; unfold is_uint64; simpl; split; (lia || reflexivity).
  - apply store_inv_empty.
  - reflexivity.
Defined.

Lemma StoreVotePackage_outcome_witness :
  StoreVotePackage 1 (vote_of 4 5 None) r1
  = (None, set_votepackages
             (votepackages r1 ++ [row_of 1 (vote_of 4 5 None) r1]) r1).
Proof.
  destruct r1_store_inv as (Hok & Hty & _).
  assert (Hpid : is_uint64 1) by (unfold is_uint64; split; [lia | reflexivity]).
  assert (Hidx : is_uint64 (Index (CensusProof_ (vote_of 4 5 None))))
    by (unfold is_uint64; split; [simpl; lia | reflexivity]).
  destruct (StoreVotePackage_outcome 1 (vote_of 4 5 None) r1 Hok Hty Hpid Hidx)
    as (_ & _ & _ & _ & Hfresh).
  apply Hfresh; [split; reflexivity | | reflexivity].
  intros (row & Hin & Hkey).
  change (votepackages r1) with [row_of 1 (vote_of 3 5 None) r0] in Hin.
  apply list_elem_of_singleton in Hin. subst row. discriminate Hkey.
Defined.

Lemma stored_keys_unique_witness :
  let r := (store_each [(1, vote_of 3 5 None); (1, vote_of 3 5 (Some 4));
                        (2, vote_of 4 5 None); (1, vote_of 4 5 None)] r0).2 in
  NoDup (composite_key <$> votepackages r)
  /\ (forall row, row ∈ votepackages r -> process_exists (processID row) r = true).
Proof.
  apply (stored_keys_unique
           [(1, vote_of 3 5 None); (1, vote_of 3 5 (Some 4));
            (2, vote_of 4 5 None); (1, vote_of 4 5 None)]
           (processes r0) 0 1000).
  repeat constructor; simpl; (lia || reflexivity).
Defined.

Lemma StoreVotePackage_read_back_witness :
  (forall votes,
     ReadVotePackagesByProcessID 1 r1 = (votes, None) ->
     exists v',
       v' ∈ votes /\ returned_for (vote_of 3 5 None) v'
       /\ length (Signature v') = 64%nat
       /\ (length (Signature (vote_of 3 5 None)) = 64%nat ->
           weight_in_domain (vote_of 3 5 None) ->
           Decompress (Compress (PublicKey (CensusProof_ (vote_of 3 5 None))))
           = inl (PublicKey (CensusProof_ (vote_of 3 5 None))) ->
           v' = vote_of 3 5 (Some 0)))
  /\ (forall e,
        Decompress (Compress (PublicKey (CensusProof_ (vote_of 3 5 None))))
        = inr e ->
        exists err, ReadVotePackagesByProcessID 1 r1 = ([], Some err)).
Proof.
  apply (StoreVotePackage_read_back 1 (vote_of 3 5 None) r0 r1 r1).
  - reflexivity.
  - intros row Hrow. exact Hrow.
Defined.

Lemma StoreVotePackage_weight_magnitude_witness :
  exists v',
    v' ∈ (ReadVotePackagesByProcessID 1 rneg).1
    /\ Index (CensusProof_ v') = Index (CensusProof_ (vote_of 3 5 (Some (-5))))
    /\ Decompress (Compress (PublicKey (CensusProof_ (vote_of 3 5 (Some (-5))))))
       = inl (PublicKey (CensusProof_ v'))
    /\ Weight (CensusProof_ v') = Some (Z.abs (-5))
    /\ (-5 < 0 -> Weight (CensusProof_ v') = Some (- -5)).
Proof.
  apply (StoreVotePackage_weight_magnitude 1 (vote_of 3 5 (Some (-5))) (-5) r0
           rneg (ReadVotePackagesByProcessID 1 rneg).1).
  - reflexivity.
  - reflexivity.
  - reflexivity.
Defined.

Lemma store_each_other_process_witness :
  ReadVotePackagesByProcessID 2
    (store_each [(1, vote_of 3 5 None); (1, vote_of 4 5 None)] r0).2
  = ReadVotePackagesByProcessID 2 r0.
Proof.
  apply (store_each_other_process 2
           [(1, vote_of 3 5 None); (1, vote_of 4 5 None)] r0).
  repeat constructor; simpl; discriminate.
Defined.

Lemma ReadVotePackagesByProcessID_none_witness :
  ReadVotePackagesByProcessID 2 r1 = ([], None).
Proof.
  destruct (ReadVotePackagesByProcessID_none 2 r1) as (_ & Hnone & _).
  apply Hnone; [reflexivity|].
  intros row Hin.
  change (votepackages r1) with [row_of 1 (vote_of 3 5 None) r0] in Hin.
  apply list_elem_of_singleton in Hin. subst row. discriminate.
Defined.


Lemma vote_id_fields_witness :
  length (@vote_id NumberedKeys 3 5 1) = 48%nat
  /\ Uint64 (take 8 (@vote_id NumberedKeys 3 5 1)) = 3
  /\ take 32 (drop 8 (@vote_id NumberedKeys 3 5 1)) = @Compress NumberedKeys 5
  /\ Uint64 (drop 40 (@vote_id NumberedKeys 3 5 1)) = 1.
Proof.
  apply (@vote_id_fields NumberedKeys 3 5 1);
    unfold is_uint64; split; (lia || reflexivity).
Defined.


Lemma processEventLog_parse_failure_witness :
  let msg := "blocknum: " +:+ fmt_d 9
             +:+ ", error parsing event log (" +:+ "processClosed" +:+ "): "
             +:+ fmt_x (Data logClosed) +:+ ", err: " +:+ "malformed" in
  @processEventLog SQLite SQLiteStore RefusingDecoder logClosed w0
    = (Some (Errorf msg), w0)
  /\ @process_and_log SQLite SQLiteStore RefusingDecoder logClosed w0
     = (tt, add_log (LogError (Errorf msg)) w0).
Proof.
  apply (@processEventLog_parse_failure SQLite SQLiteStore RefusingDecoder
           logClosed "processClosed" (Errorf "malformed") w0).
  reflexivity.
Defined.

Lemma live_and_backfill_agree_witness :
  let received := [NewLog log3; LogSubErr (DriverError "reset");
                   NewLog logResult; NewLog logClosed] in
  (@syncEventsLive SQLite SQLiteStore SpecDecoder (client_of node) received w0).1
    = InLoop
  /\ (@syncEventsHistory SQLite SQLiteStore SpecDecoder (client_of node) 0 12 w0).1
     = None
  /\ w_db (@syncEventsLive SQLite SQLiteStore SpecDecoder (client_of node)
             received w0).2
     = w_db (@syncEventsHistory SQLite SQLiteStore SpecDecoder (client_of node)
               0 12 w0).2.
Proof.
  apply (@live_and_backfill_agree SQLite SQLiteStore SpecDecoder (client_of node)
           [NewLog log3; LogSubErr (DriverError "reset");
            NewLog logResult; NewLog logClosed] 0 12 w0 w0).
  - reflexivity.
  - reflexivity.
  - reflexivity.
Defined.

Lemma syncEventsHistory_split_witness :
  @syncEventsHistory SQLite SQLiteStore SpecDecoder (client_of node) 0 12 w0
  = @syncEventsHistory SQLite SQLiteStore SpecDecoder (client_of node) 8 12
      (@syncEventsHistory SQLite SQLiteStore SpecDecoder (client_of node) 0 7 w0).2.
Proof.
  apply (@syncEventsHistory_split SQLite SQLiteStore SpecDecoder (client_of node)
           0 7 8 12 0 12 [log3] [logResult; logClosed] w0); reflexivity.
Defined.

Lemma syncHistory_stops_before_freeze_witness :
  let res := @syncHistory SQLite SQLiteStore SpecDecoder
               (client_of node_no_logs) 0 w0 in
  res.1 = Some (DriverError "query timeout")
  /\ w_db res.2 = r0
  /\ error_lines (new_lines w0 res.2)
     = [DriverError "query timeout"; DriverError "query timeout"].
Proof.
  apply (@syncHistory_stops_before_freeze SQLite SQLiteStore SpecDecoder
           (client_of node_no_logs) 0 (DriverError "query timeout") 2 w0).
  reflexivity.
Defined.

Lemma syncHistory_backfill_then_freeze_witness :
  let backfilled :=
    fold_left (fun d eventLog =>
                 @apply_event SQLite SQLiteStore SpecDecoder eventLog d)
              chain r0 in
  let sweep := FrozeProcessesByCurrentBlockNum (big_Uint64 12) backfilled in
  (@syncHistory SQLite SQLiteStore SpecDecoder (client_of node) 0 w0).1 = sweep.1
  /\ w_db (@syncHistory SQLite SQLiteStore SpecDecoder (client_of node) 0 w0).2
     = sweep.2.
Proof.
  apply (@syncHistory_backfill_then_freeze SQLite SQLiteStore SpecDecoder
           (client_of node) 0 12 chain w0); reflexivity.
Defined.

Lemma syncBlocksLive_checkpoint_witness :
  let received := [NewHeader 10; HeadSubErr (DriverError "reset"); NewHeader 11] in
  let res := @syncBlocksLive SQLite SQLiteStore (client_of node) received w0 in
  res.1 = InLoop
  /\ lastSyncBlockNum (w_db res.2) = 11
  /\ processes (w_db res.2) = processes r0
  /\ votepackages (w_db res.2) = votepackages r0.
Proof.
  apply (syncBlocksLive_checkpoint (client_of node)
           [NewHeader 10; HeadSubErr (DriverError "reset"); NewHeader 11] w0).
  reflexivity.
Defined.

Lemma syncEventsHistory_logs_every_error_witness :
  let res := @syncEventsHistory SQLite SQLiteStore SpecDecoder
               (client_of node) 0 12 w0 in
  res.1 = None
  /\ w_log w0 `prefix_of` w_log res.2
  /\ error_lines (new_lines w0 res.2)
     = @returned_errors SQLite SQLiteStore SpecDecoder chain w0.
Proof.
  apply (@syncEventsHistory_logs_every_error SQLite SQLiteStore SpecDecoder
           (client_of node) 0 12 chain w0).
  reflexivity.
Defined.

Lemma event_paths_use_two_methods_witness :
  (forall eventLog w,
     @processEventLog SQLite SQLiteStore SpecDecoder eventLog w
     = @processEventLog SQLite SQLiteNoCheckpoint SpecDecoder eventLog w)
  /\ (forall c startBlock endBlock w,
        @syncEventsHistory SQLite SQLiteStore SpecDecoder c startBlock endBlock w
        = @syncEventsHistory SQLite SQLiteNoCheckpoint SpecDecoder
            c startBlock endBlock w)
  /\ (forall c received w,
        @syncEventsLive SQLite SQLiteStore SpecDecoder c received w
        = @syncEventsLive SQLite SQLiteNoCheckpoint SpecDecoder c received w).
Proof.
  apply (@event_paths_use_two_methods SQLite SpecDecoder
           SQLiteStore SQLiteNoCheckpoint); reflexivity.
Defined.

Lemma processEventLog_NewProcess_twice_witness :
  let first := @processEventLog SQLite SQLiteStore SpecDecoder logNew w0 in
  let second := @processEventLog SQLite SQLiteStore SpecDecoder logNew first.2 in
  first.1 = None
  /\ status_of 2 (w_db first.2) = Some ProcessStatusOn
  /\ votepackages (w_db first.2) = votepackages r0
  /\ second.1 = Some (Errorf ("error storing new process: "
                              +:+ fmt_x (Data logNew) +:+ ", err: "
                              +:+ "UNIQUE constraint failed: processes.id"))
  /\ w_db second.2 = w_db first.2.
Proof.
  apply (@processEventLog_NewProcess_twice SpecDecoder logNew
           {| np_ProcessID := 2; np_CensusRoot := replicate 32 0;
              np_CensusSize := 0; np_ResPubStartBlock := 0;
              np_ResPubWindow := 0; np_MinParticipation := 0;
              np_Type := 0 |} w0).
  - reflexivity.
  - vm_compute. reflexivity.
  - reflexivity.
Defined.

End ConcreteMore.
